(** * merge-cjk-font.py: codepoint ownership, order resolution, validation

    A shallow embedding of [scripts/merge-cjk-font.py].  Python values are
    modelled as follows:

    - a [str] is the list of its Unicode code points ([list Z]), so that
      [str.strip], [str.split] and [str.replace] can be written out on
      code points;
    - a [set] of ints is a [gset Z], a [dict] that is only looked up is a
      [gmap], a [dict] whose insertion order is observed is an association
      list with Python's update rule;
    - the file system is an explicit world: font files and corpus files are
      finite maps from paths to their parsed content; what fontTools does
      with a path that has no font, and with a name it cannot encode, is
      written out;
    - exceptions and printed lines are threaded through a small monad. *)

From Stdlib Require Import ZArith String Ascii List.
From stdpp Require Import base gmap sets list sorting pretty lexico.

Local Open Scope Z_scope.
#[local] Set Warnings "-clear-no-such-hyp".

(** ** Python strings *)

Fixpoint py_str (s : string) : list Z :=
  match s with
  | EmptyString => []
  | String a s' => Z.of_N (N_of_ascii a) :: py_str s'
  end.

(** [str.isspace] on one code point: the characters [str.strip()] removes. *)
Definition is_space (c : Z) : bool :=
  (Z.leb 9 c && Z.leb c 13) || (Z.leb 28 c && Z.leb c 32)
  || Z.eqb c 133 || Z.eqb c 160 || Z.eqb c 5760
  || (Z.leb 8192 c && Z.leb c 8202)
  || Z.eqb c 8232 || Z.eqb c 8233 || Z.eqb c 8239 || Z.eqb c 8287
  || Z.eqb c 12288.

Fixpoint lstrip (s : list Z) : list Z :=
  match s with
  | [] => []
  | c :: s' => if is_space c then lstrip s' else s
  end.

Definition rstrip (s : list Z) : list Z := reverse (lstrip (reverse s)).

Definition strip (s : list Z) : list Z := rstrip (lstrip s).

(** [sep.join(parts)] *)
Fixpoint join (sep : list Z) (parts : list (list Z)) : list Z :=
  match parts with
  | [] => []
  | [p] => p
  | p :: rest => p ++ sep ++ join sep rest
  end.

(** [s.split(c)] for a one-character separator: the fields between the
    separators, [cur] being the field under construction. *)
Fixpoint split_go (c : Z) (cur : list Z) (s : list Z) : list (list Z) :=
  match s with
  | [] => [cur]
  | x :: s' => if Z.eqb x c then cur :: split_go c [] s'
               else split_go c (cur ++ [x]) s'
  end.

Definition split (c : Z) (s : list Z) : list (list Z) := split_go c [] s.

(** [s.replace(" ", "")]: every occurrence of one character removed. *)
Definition remove_char (c : Z) (s : list Z) : list Z :=
  filter (λ x, x ≠ c) s.

(** [f"{n}"] for an int. *)
Definition str_of_int (n : Z) : list Z := py_str (pretty n).

(** Truthiness of a [str]: [if s:] holds for the non-empty ones. *)
Definition truthy (s : list Z) : bool :=
  match s with [] => false | _ => true end.

(** ** Priority Order Resolver: [expand_prefer_order] *)

(** One pass of the first loop: the new value of [expanded]. *)
Definition expand_token (latin_tags : list (list Z))
    (expanded : list (list Z)) (t : list Z) : list (list Z) :=
  let t := strip t in
  if negb (truthy t) then expanded
  else if bool_decide (t = py_str "latin") then expanded ++ latin_tags
  else expanded ++ [t].

(** One pass of the second loop: the new values of [seen] and [out]. *)
Definition dedup_token (st : gset (list Z) * list (list Z)) (t : list Z)
    : gset (list Z) * list (list Z) :=
  if bool_decide (t ∈ st.1) then st
  else ({[ t ]} ∪ st.1, st.2 ++ [t]).

Definition expanded_tokens (tokens latin_tags : list (list Z))
    : list (list Z) :=
  foldl (expand_token latin_tags) [] tokens.

Definition expand_prefer_order (tokens latin_tags : list (list Z))
    : list (list Z) :=
  (foldl dedup_token (∅, []) (expanded_tokens tokens latin_tags)).2.

(** ** Effects: exceptions, the file system, printed lines *)

Inductive exn :=
  | SystemExit (msg : list Z)   (* raise SystemExit("...") *)
  | KeyError (key : list Z)     (* d[k] without the key k, font[t] without
                                   the table t *)
  | OSError (path : list Z)     (* open(p) / TTFont(p): no file to open *)
  | TTLibError (path : list Z)  (* TTFont(p): the file is not a font *)
  | UnicodeEncodeError.         (* font.save: a name that the encoding of
                                   its record cannot hold *)

(** The status the interpreter exits with when the exception reaches the
    top level: [SystemExit] with a string argument prints it and exits
    with 1, as does an uncaught exception. *)
Definition exit_status (e : exn) : Z := 1.

Inductive event :=
  | Opened (path : list Z)      (* a font or corpus file was opened *)
  | Printed (line : list Z).    (* print(...) *)

(** A computation: the events it performed, then an exception or a value. *)
Definition M (A : Type) : Type := list event * (exn + A).

Definition ret {A} (a : A) : M A := ([], inr a).
Definition raise {A} (e : exn) : M A := ([], inl e).
Definition emit (ev : event) : M unit := ([ev], inr tt).
Definition bind {A B} (m : M A) (k : A → M B) : M B :=
  match m.2 with
  | inl e => (m.1, inl e)
  | inr a => (m.1 ++ (k a).1, (k a).2)
  end.

Notation "'let!' x := m 'in' k" := (bind m (λ x, k))
  (at level 10, x name, m at level 100, k at level 200).

(** [for x in l: s = body(s, x)] *)
Fixpoint for_each {S A} (body : S → A → M S) (s : S) (l : list A) : M S :=
  match l with
  | [] => ret s
  | x :: l' => bind (body s x) (λ s', for_each body s' l')
  end.

(** [d[k] = v] on a dict kept in insertion order. *)
Fixpoint dict_set {V} (d : list (list Z * V)) (k : list Z) (v : V)
    : list (list Z * V) :=
  match d with
  | [] => [(k, v)]
  | (k', v') :: d' =>
      if bool_decide (k' = k) then (k, v) :: d' else (k', v') :: dict_set d' k v
  end.

(** ** Fonts *)

Record NameRecord := {
  nameID : Z;
  platformID : Z;
  platEncID : Z;
  langID : Z;
  name_string : list Z;
}.

(** What the script reads of an opened [TTFont]: the table tags present
    (["glyf" in f]), [f["head"].unitsPerEm], the cmap subtables (each with
    its [isUnicode()] answer and the keys of its [cmap] dict) and the
    records of the name table. *)
Record TTFont := {
  tables : gset (list Z);
  unitsPerEm : Z;
  cmap_tables : list (bool * list Z);
  names : list NameRecord;
}.

(** The file system.  [fonts] holds the font files, with what [TTFont]
    loads from them; [texts] holds the files that are read as text, with
    what [read()] returns, and lists every file that is not a font.  So a
    path that is in [texts] and not in [fonts] is a file that is not a
    font, and a path in neither map is no file at all.  No file has the
    empty path, and a file that is there can be read and written. *)
Record World := {
  fonts : gmap (list Z) TTFont;       (* path -> font file *)
  texts : gmap (list Z) (list Z);     (* path -> decoded corpus text *)
}.

(** [TTFont(path)].  A file that is a font is loaded.  The empty path is
    falsy: nothing is opened, and the result is a font without any table
    ([None]).  A file that is not a font is opened and refused with
    [TTLibError]; where there is no file, [open] raises [OSError]. *)
Definition open_font (w : World) (path : list Z) : M (option TTFont) :=
  match fonts w !! path with
  | Some f => let! _ := emit (Opened path) in ret (Some f)
  | None =>
      if bool_decide (path = []) then ret None
      else if bool_decide (path ∈ dom (texts w)) then
        let! _ := emit (Opened path) in raise (TTLibError path)
      else raise (OSError path)
  end.

(** [font[tag]] for the tables the script reads ("head", "cmap", "name"):
    a font loaded from a file answers with what the record holds of them,
    the font without tables raises [KeyError]. *)
Definition get_table (font : option TTFont) (tag : string) : M TTFont :=
  match font with
  | Some f => ret f
  | None => raise (KeyError (py_str tag))
  end.

(** [d[k]] on a dict of paths. *)
Definition getitem (font_map : gmap (list Z) (list Z)) (k : list Z)
    : M (list Z) :=
  match font_map !! k with
  | Some v => ret v
  | None => raise (KeyError k)
  end.

(** ** Font Compatibility Validator: [validate_fonts] *)

Definition has_table (f : TTFont) (t : string) : bool :=
  bool_decide (py_str t ∈ tables f).

Definition outline_kind (f : TTFont) : list Z :=
  let has_glyf := has_table f "glyf" in
  let has_cff := has_table f "CFF " || has_table f "CFF2" in
  if has_glyf && has_cff then py_str "mixed-in-one"
  else if has_glyf then py_str "glyf"
  else if has_cff then py_str "cff"
  else py_str "unknown".

Record vstate := {
  upems : list (list Z * Z);
  outline_kinds : gset (list Z);
  var_flags : list (list Z * bool);
}.

Definition validate_body (w : World) (font_map : gmap (list Z) (list Z))
    (st : vstate) (tag : list Z) : M vstate :=
  let! path := getitem font_map tag in
  let! font := open_font w path in
  let! f := get_table font "head" in
  ret {| upems := dict_set (upems st) tag (unitsPerEm f);
          outline_kinds := {[ outline_kind f ]} ∪ outline_kinds st;
          var_flags := dict_set (var_flags st) tag (has_table f "fvar") |}.

(** [f"{t}={u}"] *)
Definition upem_item (tu : list Z * Z) : list Z :=
  tu.1 ++ py_str "=" ++ str_of_int tu.2.

Definition upem_message (parts : list (list Z)) : list Z :=
  py_str "unitsPerEm mismatch across inputs (must match for merge). "
  ++ py_str "Found: " ++ join (py_str ", ") parts.

Definition upem_mismatch (upems : list (list Z * Z)) : exn :=
  SystemExit (upem_message (upem_item <$> upems)).

Definition outline_mismatch : exn :=
  SystemExit
    (py_str "Mixed TrueType (glyf) and CFF/CFF2 inputs. "
     ++ py_str "Use all-TTF glyf fonts or all-CFF fonts.").

Definition variable_warning : list Z :=
  py_str "WARNING: One or more inputs are variable fonts. "
  ++ py_str "Consider instancing to static fonts before merging.".

Definition validate_fonts (w : World) (order : list (list Z))
    (font_map : gmap (list Z) (list Z)) : M unit :=
  let! st := for_each (validate_body w font_map)
                {| upems := []; outline_kinds := ∅; var_flags := [] |} order in
  if bool_decide (1 < size (list_to_set (upems st).*2 : gset Z))%nat
  then raise (upem_mismatch (upems st))
  else if bool_decide (py_str "glyf" ∈ outline_kinds st)
          && bool_decide (py_str "cff" ∈ outline_kinds st)
  then raise outline_mismatch
  else if existsb id (var_flags st).*2
  then emit (Printed variable_warning)
  else ret tt.

(** ** Codepoint Set Builder: [build_target] *)

(** [range(lo, hi)] *)
Definition range (lo hi : Z) : list Z := seqZ lo (hi - lo).
Global Arguments range : simpl never.

Definition ASCII_BASIC : gset Z := list_to_set (range 0x20 0x7F).
Definition LATIN_1_SUP : gset Z := list_to_set (range 0x00A0 0x0100).

Definition CJK_PUNCT : Z * Z := (0x3000, 0x303F).
Definition HIRAGANA : Z * Z := (0x3040, 0x309F).
Definition KATAKANA : Z * Z := (0x30A0, 0x30FF).
Definition HALFWIDTH : Z * Z := (0xFF00, 0xFFEF).

Definition CJK_UNIFIED : Z * Z := (0x4E00, 0x9FFF).
Definition CJK_EXT_A : Z * Z := (0x3400, 0x4DBF).
Definition CJK_COMPAT : Z * Z := (0xF900, 0xFAFF).

(** [open(p, "r", encoding="utf-8", errors="ignore").read()] *)
Definition read_text (w : World) (p : list Z) : M (list Z) :=
  match texts w !! p with
  | Some t => let! _ := emit (Opened p) in ret t
  | None => raise (OSError p)
  end.

(** The characters of a text: its one-character substrings. *)
Definition chars_of (t : list Z) : gset (list Z) :=
  list_to_set ((λ c, [c]) <$> t).

Definition read_corpus_chars (w : World) (paths : list (list Z))
    : M (gset (list Z)) :=
  let! chars := for_each (λ chars p,
                   let! t := read_text w p in ret (chars ∪ chars_of t))
                  ∅ paths in
  ret (filter (λ c, truthy c = true ∧ length c = 1%nat) chars).

(** [ord(c)]; the script applies it to one-character strings only. *)
Definition ord (c : list Z) : Z :=
  match c with [z] => z | _ => 0 end.

Definition chars_to_codepoints (chars : gset (list Z)) : gset Z :=
  set_map ord chars.

Definition add_range (s : gset Z) (lo hi : Z) : gset Z :=
  s ∪ list_to_set (range lo (hi + 1)).

Record Args := {
  latin : list (list Z);
  zh_tw : list Z;
  zh_cn : list Z;
  ja : option (list Z);
  corpus : option (list (list Z));
  drop_tables : list (list Z);
  out : list Z;
  out_name : list Z;
  out_subfamily : list Z;
  prefer_order : option (list Z);
  add_latin1 : bool;
  add_cjk_punct : bool;
  add_jp_syllabaries : bool;
  add_halfwidth : bool;
  add_han_basic : bool;
}.

(** [if x:] for an optional list or string argument: neither [None] nor
    empty. *)
Definition given {A} (o : option (list A)) : bool :=
  match o with Some (_ :: _) => true | _ => false end.

Definition build_target (w : World) (args : Args) : M (gset Z) :=
  let target : gset Z := ∅ in
  let target := target ∪ ASCII_BASIC in
  let! target :=
    if given (corpus args) then
      let! corpus_chars := read_corpus_chars w (default [] (corpus args)) in
      ret (target ∪ chars_to_codepoints corpus_chars)
    else ret target in
  let target := if add_latin1 args then target ∪ LATIN_1_SUP else target in
  let target := if add_cjk_punct args
                then add_range target CJK_PUNCT.1 CJK_PUNCT.2 else target in
  let target := if add_jp_syllabaries args
                then add_range (add_range target HIRAGANA.1 HIRAGANA.2)
                       KATAKANA.1 KATAKANA.2
                else target in
  let target := if add_halfwidth args
                then add_range target HALFWIDTH.1 HALFWIDTH.2 else target in
  let target := if add_han_basic args
                then add_range
                       (add_range
                          (add_range target CJK_UNIFIED.1 CJK_UNIFIED.2)
                          CJK_EXT_A.1 CJK_EXT_A.2)
                       CJK_COMPAT.1 CJK_COMPAT.2
                else target in
  ret target.

(** ** Coverage of a font: [get_font_unicode_set] *)

Definition get_font_unicode_set (w : World) (font_path : list Z)
    : M (gset Z) :=
  let! font := open_font w font_path in
  let! font := get_table font "cmap" in
  ret (foldl (λ (unicodes : gset Z) (table : bool * list Z),
                if table.1 then unicodes ∪ list_to_set table.2 else unicodes)
         ∅ (cmap_tables font)).

(** ** Ownership Partitioner: the loop of [main] over [sorted(target)] *)

(** [sorted(target)] *)
Definition sorted (s : gset Z) : list Z := merge_sort Z.le (elements s).

(** The inner loop: the first tag of [order] whose coverage has [u], or
    [None] when the loop runs to its end.  [support] has a key for every
    tag of [order] (it is built from [order]), so the lookup is total. *)
Fixpoint find_owner (support : gmap (list Z) (gset Z)) (u : Z)
    (order : list (list Z)) : option (list Z) :=
  match order with
  | [] => None
  | tag :: rest =>
      if bool_decide (u ∈ support !!! tag) then Some tag
      else find_owner support u rest
  end.

Record pstate := {
  assigned : gmap (list Z) (gset Z);
  unassigned : Z;
}.

(** [if owner:] is false both for [None] and for an empty tag. *)
Definition partition_body (order : list (list Z))
    (support : gmap (list Z) (gset Z)) (st : pstate) (u : Z) : pstate :=
  match find_owner support u order with
  | Some owner =>
      if truthy owner
      then {| assigned := <[owner := {[ u ]} ∪ assigned st !!! owner]>
                            (assigned st);
              unassigned := unassigned st |}
      else {| assigned := assigned st; unassigned := unassigned st + 1 |}
  | None => {| assigned := assigned st; unassigned := unassigned st + 1 |}
  end.

(** [{tag: set() for tag in order}] *)
Definition empty_assignment (order : list (list Z))
    : gmap (list Z) (gset Z) :=
  foldl (λ m tag, <[tag := ∅]> m) ∅ order.

Definition partition (target : gset Z) (order : list (list Z))
    (support : gmap (list Z) (gset Z)) : pstate :=
  foldl (partition_body order support)
    {| assigned := empty_assignment order; unassigned := 0 |}
    (sorted target).

(** ** Renamer: [set_font_name] *)

Definition full_name_of (family_name subfamily : list Z) : list Z :=
  if bool_decide (subfamily ≠ py_str "Regular")
  then family_name ++ py_str " " ++ subfamily
  else family_name.

Definition ps_name_of (full_name : list Z) : list Z :=
  remove_char 32 full_name.

(** The dict [name_records] *)
Definition name_records (family_name subfamily : list Z)
    : gmap Z (list Z) :=
  let full_name := full_name_of family_name subfamily in
  let ps_name := ps_name_of full_name in
  <[6 := ps_name]> (<[4 := full_name]> (<[2 := subfamily]>
    (<[1 := family_name]> ∅))).

(** One pass of the loop over [name_table.names]: the assignment to
    [record.string] stores the new name, it cannot raise. *)
Definition rename_record (recs : gmap Z (list Z)) (record : NameRecord)
    : NameRecord :=
  match recs !! nameID record with
  | Some s =>
      {| nameID := nameID record; platformID := platformID record;
         platEncID := platEncID record; langID := langID record;
         name_string := s |}
  | None => record
  end.

(** [font.save] compiles the name table.  [toBytes] stands for the method
    of that name: the bytes of the string of a record, which for a record
    the loop has left alone are the bytes of the file, and for a record
    with a new name its encoding in the encoding of the platform of the
    record, or [None] where that encoding cannot hold the name.

    The key of [NameRecord.__lt__]: the four ids, then the bytes. *)
Definition name_key (toBytes : NameRecord → option (list Z))
    (r : NameRecord) : Z * Z * Z * Z * list Z :=
  (platformID r, platEncID r, langID r, nameID r, default [] (toBytes r)).

Definition name_lt (toBytes : NameRecord → option (list Z))
    (r1 r2 : NameRecord) : Prop :=
  lexico (name_key toBytes r1) (name_key toBytes r2).

(** [names.sort()]: a stable sort by [<]. *)
Fixpoint insert_name (toBytes : NameRecord → option (list Z))
    (r : NameRecord) (l : list NameRecord) : list NameRecord :=
  match l with
  | [] => [r]
  | x :: l' =>
      if bool_decide (name_lt toBytes x r)
      then x :: insert_name toBytes r l'
      else r :: x :: l'
  end.

Definition sort_names (toBytes : NameRecord → option (list Z))
    (l : list NameRecord) : list NameRecord :=
  foldr (insert_name toBytes) [] l.

(** The records as the saved file holds them: sorted, every string
    encoded; a string that cannot be encoded raises. *)
Definition compile_names (toBytes : NameRecord → option (list Z))
    (l : list NameRecord) : M (list NameRecord) :=
  if forallb (λ r, bool_decide (is_Some (toBytes r))) l
  then ret (sort_names toBytes l)
  else raise UnicodeEncodeError.

(** The font is opened, its name records are rewritten in place, and it
    is saved under the same path; the result is the new file system.
    [font.save] is outside the [try]: when it raises, the exception
    leaves the function and nothing is printed. *)
Definition set_font_name (toBytes : NameRecord → option (list Z)) (w : World)
    (font_path family_name subfamily : list Z) : M World :=
  let! font := open_font w font_path in
  let! font := get_table font "name" in
  let recs := name_records family_name subfamily in
  let! saved := compile_names toBytes (rename_record recs <$> names font) in
  let font' := {| tables := tables font; unitsPerEm := unitsPerEm font;
                  cmap_tables := cmap_tables font; names := saved |} in
  let! _ := emit (Printed (py_str "Font renamed to: "
                           ++ full_name_of family_name subfamily)) in
  ret {| fonts := <[font_path := font']> (fonts w); texts := texts w |}.

(** ** [main] up to the partition *)

(** [[f"latin{i}" for i in range(len(args.latin))]] *)
Definition latin_tags_of (args : Args) : list (list Z) :=
  (λ i, py_str "latin" ++ str_of_int i)
    <$> range 0 (Z.of_nat (length (latin args))).

Definition font_map_of (args : Args) : gmap (list Z) (list Z) :=
  let font_map : gmap (list Z) (list Z) :=
    foldl (λ m tp, <[tp.1 := tp.2]> m) ∅
      (zip (latin_tags_of args) (latin args)) in
  let font_map :=
    <[py_str "zh-cn" := zh_cn args]> (<[py_str "zh-tw" := zh_tw args]> font_map) in
  match ja args with
  | Some (c :: p) => <[py_str "ja" := c :: p]> font_map
  | _ => font_map
  end.

(** The order before the filter of line 270. *)
Definition requested_order (args : Args) : list (list Z) :=
  let latin_tags := latin_tags_of args in
  if given (prefer_order args) then
    let raw_tokens := strip <$> split 44 (default [] (prefer_order args)) in
    expand_prefer_order raw_tokens latin_tags
  else
    latin_tags ++ [py_str "zh-tw"; py_str "zh-cn"]
      ++ (if given (ja args) then [py_str "ja"] else []).

(** [[t for t in order if t in font_map and font_map[t]]] *)
Definition keep_valid (font_map : gmap (list Z) (list Z))
    (order : list (list Z)) : list (list Z) :=
  filter (λ t, from_option truthy false (font_map !! t) = true) order.

Definition resolved_order (args : Args) : list (list Z) :=
  keep_valid (font_map_of args) (requested_order args).

Definition no_valid_fonts : exn :=
  SystemExit (py_str "No valid fonts in prefer order.").

(** [{tag: get_font_unicode_set(font_map[tag]) for tag in order}] *)
Definition support_of (w : World) (font_map : gmap (list Z) (list Z))
    (order : list (list Z)) : M (gmap (list Z) (gset Z)) :=
  for_each (λ (support : gmap (list Z) (gset Z)) tag,
              let! path := getitem font_map tag in
              let! unicodes := get_font_unicode_set w path in
              ret (<[tag := unicodes]> support))
    ∅ order.

(** What the rest of [main] consumes: the loop over [order] that subsets
    every font with a non-empty assignment, the external merge and the
    report. *)
Record Plan := {
  plan_order : list (list Z);
  plan_target : gset Z;
  plan_assigned : gmap (list Z) (gset Z);
  plan_unassigned : Z;
}.

(** The tags the subsetting loop does not skip, with their [keep] sets. *)
Definition subset_jobs (p : Plan) : list (list Z * gset Z) :=
  omap (λ tag, let keep := plan_assigned p !!! tag in
               if bool_decide (keep = ∅) then None else Some (tag, keep))
    (plan_order p).

Definition main (w : World) (args : Args) : M Plan :=
  let font_map := font_map_of args in
  let order := resolved_order args in
  let! _ := if bool_decide (order = []) then raise no_valid_fonts
            else ret tt in
  let! _ := validate_fonts w order font_map in
  let! target := build_target w args in
  let! support := support_of w font_map order in
  let st := partition target order support in
  ret {| plan_order := order; plan_target := target;
         plan_assigned := assigned st; plan_unassigned := unassigned st |}.

(** ** The resolver as the specification words it

    Trim every token, drop the empty ones, replace each ["latin"] by the
    latin tags, then keep the first occurrence of every tag. *)

Fixpoint keep_first (l : list (list Z)) : list (list Z) :=
  match l with
  | [] => []
  | x :: l' => x :: filter (λ y, y ≠ x) (keep_first l')
  end.

Definition expand_one (latinTags : list (list Z)) (t : list Z)
    : list (list Z) :=
  if bool_decide (t = py_str "latin") then latinTags else [t].

Definition resolveOrder_spec (tokens latinTags : list (list Z))
    : list (list Z) :=
  keep_first
    (mjoin (expand_one latinTags <$> filter (λ t, t ≠ []) (strip <$> tokens))).

(** ** Vocabulary of the statements *)

(** [f] is the font the run reads for [tag]: [font_map] has a path for the
    tag and the file system has a font at that path. *)
Definition font_at (w : World) (font_map : gmap (list Z) (list Z))
    (tag : list Z) (f : TTFont) : Prop :=
  ∃ path, font_map !! tag = Some path ∧ fonts w !! path = Some f.

(** The value [tag] gets in a dict filled from the fonts of the run. *)
Definition tag_value {V : Type} (w : World) (font_map : gmap (list Z) (list Z))
    (g : TTFont → V) (tag : list Z) : option V :=
  g <$> (font_map !! tag ≫= λ path, fonts w !! path).

(** Every entry of a dict holds the value [val] gives its key. *)
Definition consistent {V : Type} (val : list Z → option V)
    (d : list (list Z * V)) : Prop :=
  ∀ kv, kv ∈ d → val kv.1 = Some kv.2.

(** The loop body of [validate_fonts] once the font is at hand. *)
Definition vstep (st : vstate) (tf : list Z * TTFont) : vstate :=
  {| upems := dict_set (upems st) tf.1 (unitsPerEm tf.2);
     outline_kinds := {[ outline_kind tf.2 ]} ∪ outline_kinds st;
     var_flags := dict_set (var_flags st) tf.1 (has_table tf.2 "fvar") |}.

(** The dict [upems] after the loop over [order], whose fonts are [fs]. *)
Definition upems_dict (order : list (list Z)) (fs : list TTFont)
    : list (list Z * Z) :=
  upems (foldl vstep {| upems := []; outline_kinds := ∅; var_flags := [] |}
           (zip order fs)).

(** The files [validate_fonts] opens, in order. *)
Definition opened_fonts (font_map : gmap (list Z) (list Z))
    (order : list (list Z)) : list event :=
  Opened <$> omap (λ tag, font_map !! tag) order.

(** The observed outline kinds of a list of fonts. *)
Definition kinds_of (fs : list TTFont) : gset (list Z) :=
  list_to_set (outline_kind <$> fs).

(** The number of distinct units-per-em values of a list of fonts. *)
Definition distinct_upems (fs : list TTFont) : nat :=
  size (list_to_set (unitsPerEm <$> fs) : gset Z).

(** The same font without its variation-axis table, and a file system
    whose fonts are all static. *)
Definition static_font (f : TTFont) : TTFont :=
  {| tables := tables f ∖ {[ py_str "fvar" ]}; unitsPerEm := unitsPerEm f;
     cmap_tables := cmap_tables f; names := names f |}.

Definition static_world (w : World) : World :=
  {| fonts := static_font <$> fonts w; texts := texts w |}.

(** The corpus part of [build_target]: ASCII, then the corpus characters
    when a corpus is given. *)
Definition corpus_target (w : World) (args : Args) : M (gset Z) :=
  if given (corpus args) then
    let! corpus_chars := read_corpus_chars w (default [] (corpus args)) in
    ret (∅ ∪ ASCII_BASIC ∪ chars_to_codepoints corpus_chars)
  else ret (∅ ∪ ASCII_BASIC).

(** The block part of [build_target]: the ranges of the enabled flags. *)
Definition add_blocks (args : Args) (target : gset Z) : gset Z :=
  let target := if add_latin1 args then target ∪ LATIN_1_SUP else target in
  let target := if add_cjk_punct args
                then add_range target CJK_PUNCT.1 CJK_PUNCT.2 else target in
  let target := if add_jp_syllabaries args
                then add_range (add_range target HIRAGANA.1 HIRAGANA.2)
                       KATAKANA.1 KATAKANA.2
                else target in
  let target := if add_halfwidth args
                then add_range target HALFWIDTH.1 HALFWIDTH.2 else target in
  if add_han_basic args
  then add_range
         (add_range (add_range target CJK_UNIFIED.1 CJK_UNIFIED.2)
            CJK_EXT_A.1 CJK_EXT_A.2)
         CJK_COMPAT.1 CJK_COMPAT.2
  else target.

(** The arguments with [--add-jp-syllabaries] set to [b]. *)
Definition set_jp (b : bool) (args : Args) : Args :=
  {| latin := latin args; zh_tw := zh_tw args; zh_cn := zh_cn args;
     ja := ja args; corpus := corpus args; drop_tables := drop_tables args;
     out := out args; out_name := out_name args;
     out_subfamily := out_subfamily args; prefer_order := prefer_order args;
     add_latin1 := add_latin1 args; add_cjk_punct := add_cjk_punct args;
     add_jp_syllabaries := b; add_halfwidth := add_halfwidth args;
     add_han_basic := add_han_basic args |}.

(** The codepoints 0x3040 to 0x30FF. *)
Definition JP_SYLLABARIES : gset Z := list_to_set (range 0x3040 0x3100).

(** The owner the loop body settles on for [u]: the first tag of [order]
    that covers it, when there is one and it is truthy. *)
Definition owner (order : list (list Z)) (support : gmap (list Z) (gset Z))
    (u : Z) : option (list Z) :=
  match find_owner support u order with
  | Some t => if truthy t then Some t else None
  | None => None
  end.

(** The target codepoints that no font of [order] covers. *)
Definition uncovered (target : gset Z) (order : list (list Z))
    (support : gmap (list Z) (gset Z)) : gset Z :=
  filter (λ u, Forall (λ t, u ∉ support !!! t) order) target.

(** ** Example runs *)

(** A font with the given tables and units-per-em, whose one Unicode cmap
    subtable has the given keys. *)
Definition font_with (ts : list string) (upem : Z) (cmap : list Z)
    : TTFont :=
  {| tables := list_to_set (py_str <$> ts); unitsPerEm := upem;
     cmap_tables := [(true, cmap)]; names := [] |}.

Definition ex_order : list (list Z) := [py_str "latin0"; py_str "zh-tw"].

Definition ex_font_map : gmap (list Z) (list Z) :=
  <[py_str "zh-tw" := py_str "tw.otf"]>
    (<[py_str "latin0" := py_str "latin.ttf"]> ∅).

(** A file system with a font for each of the two tags. *)
Definition ex_world (a b : TTFont) : World :=
  {| fonts := <[py_str "tw.otf" := b]> (<[py_str "latin.ttf" := a]> ∅);
     texts := ∅ |}.

(** Fonts A and B of the end-to-end example, and a third font C. *)
Definition ex_support : gmap (list Z) (gset Z) :=
  <[py_str "C" := {[0x41; 0x42; 0x43]}]>
    (<[py_str "B" := {[0x42; 0x43]}]> (<[py_str "A" := {[0x41; 0x42]}]> ∅)).

Definition ex_target : gset Z := {[0x41; 0x42; 0x43; 0x44]}.

(** A run that asks for the ja font alone without giving one. *)
Definition ex_args_no_font : Args :=
  {| latin := [py_str "latin.ttf"]; zh_tw := py_str "tw.otf";
     zh_cn := py_str "cn.otf"; ja := None; corpus := None;
     drop_tables := []; out := py_str "merged_common.ttf";
     out_name := py_str "Noto Serif CJK"; out_subfamily := py_str "Light";
     prefer_order := Some (py_str "ja, ko"); add_latin1 := false;
     add_cjk_punct := false; add_jp_syllabaries := false;
     add_halfwidth := false; add_han_basic := false |}.

(** A font with five name records, and the file system that holds it. *)
Definition ex_names : list NameRecord :=
  (λ i, {| nameID := i; platformID := 3; platEncID := 1; langID := 0x409;
           name_string := py_str "old" |}) <$> [1; 2; 3; 4; 6].

Definition ex_named_world : World :=
  {| fonts := {[ py_str "merged_common.ttf" :=
                   {| tables := ∅; unitsPerEm := 1000; cmap_tables := [];
                      names := ex_names |} ]};
     texts := ∅ |}.

(** ** The rest of the script

    [drop_tables], and the vocabulary of the statements about the
    functions above. *)

(** [t in font]: a table of the font, or the pseudo-table "GlyphOrder",
    which every font answers for. *)
Definition has_key (font : TTFont) (t : list Z) : bool :=
  bool_decide (t ∈ tables font ∨ t = py_str "GlyphOrder").

(** One pass of the loop of [drop_tables(font, tags)]; [del font[t]]
    removes the table and leaves the pseudo-table answered for. *)
Definition drop_table (font : TTFont) (t : list Z) : M TTFont :=
  if has_key font t then
    let! _ := emit (Printed (py_str "Dropping table: " ++ t)) in
    ret {| tables := tables font ∖ {[ t ]}; unitsPerEm := unitsPerEm font;
           cmap_tables := cmap_tables font; names := names font |}
  else ret font.

(** [drop_tables(font, tags)]; the record of the arguments has the field
    [drop_tables] already. *)
Definition drop_font_tables (font : TTFont) (tags : list (list Z))
    : M TTFont :=
  for_each drop_table font tags.

(** The set [get_font_unicode_set] returns for an opened font. *)
Definition coverage (font : TTFont) : gset Z :=
  foldl (λ (unicodes : gset Z) (table : bool * list Z),
           if table.1 then unicodes ∪ list_to_set table.2 else unicodes)
    ∅ (cmap_tables font).

(** The font the run reads for a tag, if there is one. *)
Definition font_of (w : World) (font_map : gmap (list Z) (list Z))
    (tag : list Z) : option TTFont :=
  font_map !! tag ≫= λ path, fonts w !! path.

(** The block ranges together. *)
Definition ALL_BLOCKS : gset Z :=
  LATIN_1_SUP
  ∪ list_to_set (range 0x3000 0x3040) ∪ list_to_set (range 0x3040 0x3100)
  ∪ list_to_set (range 0xFF00 0xFFF0) ∪ list_to_set (range 0x4E00 0xA000)
  ∪ list_to_set (range 0x3400 0x4DC0) ∪ list_to_set (range 0xF900 0xFB00).

(** A corpus of two files, the second of which is missing, and runs that
    read the first or both. *)
Definition ex_corpus_world : World :=
  {| fonts := ∅;
     texts := {[ py_str "book.txt" := [0x3042; 0x41; 0x3042; 0x4E00] ]} |}.

Definition ex_corpus_args (paths : list (list Z)) : Args :=
  {| latin := [py_str "latin.ttf"]; zh_tw := py_str "tw.otf";
     zh_cn := py_str "cn.otf"; ja := None; corpus := Some paths;
     drop_tables := []; out := py_str "merged_common.ttf";
     out_name := py_str "Noto Serif CJK"; out_subfamily := py_str "Light";
     prefer_order := None; add_latin1 := false;
     add_cjk_punct := false; add_jp_syllabaries := false;
     add_halfwidth := false; add_han_basic := false |}.

(** What the loop of [validate_fonts] does at a tag without a font: the
    files it opens and the exception it raises.  [font_map[tag]] fails,
    or [TTFont(path)] does, or, for the empty path, [f["head"]]. *)
Definition font_error (w : World) (font_map : gmap (list Z) (list Z))
    (tag : list Z) : list event * exn :=
  match font_map !! tag with
  | Some path =>
      if bool_decide (path = []) then ([], KeyError (py_str "head"))
      else if bool_decide (path ∈ dom (texts w))
           then ([Opened path], TTLibError path)
      else ([], OSError path)
  | None => ([], KeyError tag)
  end.

(** The encoding of the examples: UTF-16BE, which the records of the
    Windows platform with encoding 1 have. *)
Definition utf_16_be (c : Z) : option (list Z) :=
  if bool_decide (0xD800 ≤ c ≤ 0xDFFF) then None
  else if bool_decide (c < 0x10000) then Some [c `div` 256; c `mod` 256]
  else
    let hi := 0xD800 + (c - 0x10000) `div` 1024 in
    let lo := 0xDC00 + (c - 0x10000) `mod` 1024 in
    Some [hi `div` 256; hi `mod` 256; lo `div` 256; lo `mod` 256].

(** ASCII, which the records of the ISO platform with encoding 0 have. *)
Definition ascii_bytes (s : list Z) : option (list Z) :=
  if forallb (λ c, bool_decide (0 ≤ c < 128)) s then Some s else None.

Definition ex_toBytes (r : NameRecord) : option (list Z) :=
  if bool_decide (platformID r = 2 ∧ platEncID r = 0)
  then ascii_bytes (name_string r)
  else mjoin <$> mapM utf_16_be (name_string r).

(** A font with a Windows and an ISO record for the family name. *)
Definition ex_iso_world : World :=
  {| fonts := {[ py_str "merged_common.ttf" :=
                   {| tables := ∅; unitsPerEm := 1000; cmap_tables := [];
                      names :=
                        [ {| nameID := 1; platformID := 3; platEncID := 1;
                             langID := 0x409; name_string := py_str "old" |};
                          {| nameID := 1; platformID := 2; platEncID := 0;
                             langID := 0; name_string := py_str "old" |} ]
                   |} ]};
     texts := ∅ |}.

(** A font with four tables, for [drop_tables]. *)
Definition ex_tabled_font : TTFont :=
  font_with ["glyf"; "vhea"; "vmtx"; "head"] 1000 [].

(** The dict [support] of [main] for the fonts of an order: the coverage
    of the font of every tag. *)
Definition support_map (w : World) (font_map : gmap (list Z) (list Z))
    (order : list (list Z)) : gmap (list Z) (gset Z) :=
  foldl (λ (support : gmap (list Z) (gset Z)) tag,
           match font_of w font_map tag with
           | Some f => <[tag := coverage f]> support
           | None => support
           end) ∅ order.

(** A run on two fonts that share the letters B and C, with a corpus. *)
Definition ex_run_world : World :=
  {| fonts := {[ py_str "latin.ttf" := font_with ["glyf"] 1000 [0x41; 0x42; 0x43];
                 py_str "tw.otf" := font_with ["glyf"] 1000 [0x42; 0x43; 0x3042];
                 py_str "cn.otf" := font_with ["glyf"] 1000 [0x3042] ]};
     texts := {[ py_str "book.txt" := [0x3042; 0x41; 0x3042; 0x4E00] ]} |}.

(** The coverage of the font of a tag; empty when the tag has no font. *)
Definition coverage_of (w : World) (font_map : gmap (list Z) (list Z))
    (tag : list Z) : gset Z :=
  from_option coverage ∅ (font_of w font_map tag).

(** The arguments of a run on [ex_run_world]. *)
Definition ex_run_args : Args :=
  {| latin := [py_str "latin.ttf"]; zh_tw := py_str "tw.otf";
     zh_cn := py_str "cn.otf"; ja := None;
     corpus := Some [py_str "book.txt"];
     drop_tables := []; out := py_str "merged_common.ttf";
     out_name := py_str "Noto Serif CJK"; out_subfamily := py_str "Light";
     prefer_order := Some (py_str "zh-tw, latin ,zh-cn,ja"); add_latin1 := false;
     add_cjk_punct := false; add_jp_syllabaries := false;
     add_halfwidth := false; add_han_basic := false |}.

(** * Proofs *)

(** ** Priority Order Resolver *)

Section resolver.
Implicit Types (l out : list (list Z)) (seen : gset (list Z)).

Lemma truthy_false (s : list Z) : truthy s = false ↔ s = [].
Proof. by destruct s. Qed.

Lemma truthy_true (s : list Z) : truthy s = true ↔ s ≠ [].
Proof. by destruct s. Qed.

Lemma expanded_tokens_acc latin_tags acc tokens :
  foldl (expand_token latin_tags) acc tokens
  = acc ++ mjoin (expand_one latin_tags
                    <$> filter (λ t, t ≠ []) (strip <$> tokens)).
Proof.
  revert acc. induction tokens as [|t tokens IH]; intros acc; simpl.
  { by rewrite app_nil_r. }
  rewrite IH. unfold expand_token at 1. rewrite filter_cons.
  destruct (strip t) as [|c s] eqn:Hs.
  { by rewrite decide_False by naive_solver. }
  rewrite decide_True by done. cbn [truthy negb fmap list_fmap mjoin list_join].
  unfold expand_one at 2.
  case_bool_decide; by rewrite <- app_assoc.
Qed.

Lemma filter_filter_ne (P : list Z → Prop) `{!∀ x, Decision (P x)} x l :
  ¬ P x → filter P (filter (λ y, y ≠ x) l) = filter P l.
Proof.
  intros Hx. induction l as [|a l IH]; [done|].
  rewrite !filter_cons. destruct (decide (a ≠ x)) as [Hne|Heq].
  - rewrite filter_cons. by rewrite IH.
  - apply dec_stable in Heq as ->. by rewrite decide_False.
Qed.

Lemma filter_comm' (P Q : list Z → Prop)
    `{!∀ x, Decision (P x), !∀ x, Decision (Q x)} l :
  filter P (filter Q l) = filter Q (filter P l).
Proof.
  induction l as [|a l IH]; [done|].
  rewrite !filter_cons.
  destruct (decide (Q a)), (decide (P a));
    rewrite ?filter_cons, ?decide_True, ?decide_False by done;
    by rewrite ?IH.
Qed.

Lemma keep_first_filter (P : list Z → Prop) `{!∀ x, Decision (P x)} l :
  keep_first (filter P l) = filter P (keep_first l).
Proof.
  induction l as [|a l IH]; [done|]. simpl.
  rewrite !filter_cons. destruct (decide (P a)); simpl.
  - by rewrite IH, filter_comm'.
  - by rewrite IH, filter_filter_ne.
Qed.

Lemma dedup_loop_spec seen out l :
  (∀ x, x ∈ seen ↔ x ∈ out) →
  (foldl dedup_token (seen, out) l).2
  = out ++ keep_first (filter (λ x, x ∉ out) l).
Proof.
  revert seen out. induction l as [|a l IH]; intros seen out Hseen; simpl.
  { by rewrite app_nil_r. }
  unfold dedup_token at 2. simpl. rewrite filter_cons.
  case_bool_decide as Ha.
  - rewrite decide_False by (rewrite <- Hseen; naive_solver).
    by apply IH.
  - rewrite decide_True by (by rewrite <- Hseen).
    rewrite (IH ({[a]} ∪ seen) (out ++ [a])).
    2:{ intros x. rewrite elem_of_union, elem_of_singleton, elem_of_app,
          list_elem_of_singleton, Hseen. tauto. }
    rewrite <- app_assoc. simpl. do 2 f_equal.
    rewrite <- keep_first_filter. f_equal.
    rewrite list_filter_filter. apply list_filter_iff.
    intros x. rewrite elem_of_app, list_elem_of_singleton. tauto.
Qed.

Lemma expand_prefer_order_keep_first tokens latin_tags :
  expand_prefer_order tokens latin_tags
  = keep_first (expanded_tokens tokens latin_tags).
Proof.
  unfold expand_prefer_order. rewrite (dedup_loop_spec ∅ []) by set_solver.
  simpl. f_equal. induction (expanded_tokens tokens latin_tags) as [|a l IH];
    [done|].
  rewrite filter_cons_True by apply not_elem_of_nil. by f_equal.
Qed.

Lemma elem_of_keep_first l x : x ∈ keep_first l ↔ x ∈ l.
Proof.
  induction l as [|a l IH]; [done|]. simpl.
  rewrite !elem_of_cons, list_elem_of_filter, IH.
  destruct (decide (x = a)); naive_solver.
Qed.

Lemma NoDup_keep_first l : NoDup (keep_first l).
Proof.
  induction l as [|a l IH]; simpl; [constructor|].
  constructor; [|by apply NoDup_filter].
  rewrite list_elem_of_filter. naive_solver.
Qed.

Lemma filter_eq_app_cons (P : list Z → Prop) `{!∀ x, Decision (P x)}
    l r1 x r2 :
  filter P l = r1 ++ x :: r2 →
  ∃ l1 l2, l = l1 ++ x :: l2 ∧ filter P l1 = r1 ∧ filter P l2 = r2 ∧ P x.
Proof.
  revert r1. induction l as [|a l IH]; intros r1 Hf.
  { by destruct r1. }
  rewrite filter_cons in Hf. destruct (decide (P a)) as [Ha|Ha].
  - destruct r1 as [|b r1]; injection Hf as -> Hf.
    + exists [], l. by rewrite filter_nil.
    + destruct (IH _ Hf) as (l1 & l2 & -> & <- & <- & ?).
      exists (b :: l1), l2. by rewrite filter_cons, decide_True.
  - destruct (IH _ Hf) as (l1 & l2 & -> & <- & <- & ?).
    exists (a :: l1), l2. by rewrite filter_cons, decide_False.
Qed.

Lemma keep_first_split l r1 x r2 :
  keep_first l = r1 ++ x :: r2 →
  ∃ l1 l2, l = l1 ++ x :: l2 ∧ (x ∉ l1) ∧ (∀ y, y ∈ l1 ↔ y ∈ r1).
Proof.
  revert r1 r2. induction l as [|a l IH]; intros r1 r2 Hk; simpl in Hk.
  { by destruct r1. }
  destruct r1 as [|b r1]; injection Hk as -> Hk.
  { exists [], l. split_and!; [done|apply not_elem_of_nil|done]. }
  apply filter_eq_app_cons in Hk as (k1 & k2 & Hk & <- & <- & Hxb).
  destruct (IH _ _ Hk) as (l1 & l2 & -> & Hx & Hl1).
  exists (b :: l1), l2. split_and!; [done| |].
  - rewrite elem_of_cons. naive_solver.
  - intros y. rewrite !elem_of_cons, list_elem_of_filter, Hl1.
    destruct (decide (y = b)); naive_solver.
Qed.

Lemma lstrip_spec (s : list Z) :
  ∃ ws, s = ws ++ lstrip s ∧ Forall (λ c, is_space c = true) ws
        ∧ from_option is_space false (head (lstrip s)) = false.
Proof.
  induction s as [|c s (ws & Hs & Hws & Hhd)]; simpl.
  { exists []. by repeat constructor. }
  destruct (is_space c) eqn:Hc.
  - exists (c :: ws). split_and!; [by rewrite Hs at 1|by constructor|done].
  - exists []. by repeat constructor.
Qed.

Lemma strip_spec (s : list Z) :
  ∃ ws1 ws2, s = ws1 ++ strip s ++ ws2
    ∧ Forall (λ c, is_space c = true) ws1
    ∧ Forall (λ c, is_space c = true) ws2
    ∧ from_option is_space false (head (strip s)) = false
    ∧ from_option is_space false (last (strip s)) = false.
Proof.
  unfold strip, rstrip.
  destruct (lstrip_spec s) as (ws1 & Hs & Hws1 & Hhd).
  destruct (lstrip_spec (reverse (lstrip s))) as (ws2 & Hr & Hws2 & Hlast).
  exists ws1, (reverse ws2). split_and!.
  - rewrite <- reverse_app, <- Hr, reverse_involutive. done.
  - done.
  - by apply Forall_reverse.
  - apply (f_equal reverse) in Hr.
    rewrite reverse_involutive, reverse_app in Hr.
    destruct (reverse (lstrip (reverse (lstrip s)))) as [|c r]; [done|].
    rewrite Hr in Hhd. done.
  - by rewrite last_reverse.
Qed.
End resolver.

(** C3. The resolver trims each token, drops the empty ones, puts the
    latin tags in place of every ["latin"], passes the other tokens on, and
    keeps the first occurrence of every tag: the code computes the
    function the specification words describe, its result has no
    duplicate and the tags of the expansion, each tag stands behind
    exactly the tags that occur ahead of its first occurrence in the
    expansion, and the worked example holds. *)
Theorem expand_prefer_order_resolves (tokens latin_tags : list (list Z)) :
  let trimmed := filter (λ t, t ≠ []) (strip <$> tokens) in
  let expanded := mjoin (expand_one latin_tags <$> trimmed) in
  let out := expand_prefer_order tokens latin_tags in
  (∀ t, ∃ ws1 ws2, t = ws1 ++ strip t ++ ws2
      ∧ Forall (λ c, is_space c = true) ws1
      ∧ Forall (λ c, is_space c = true) ws2
      ∧ from_option is_space false (head (strip t)) = false
      ∧ from_option is_space false (last (strip t)) = false)
  ∧ out = resolveOrder_spec tokens latin_tags
  ∧ NoDup out
  ∧ (∀ t, t ∈ out ↔ t ∈ expanded)
  ∧ (∀ r1 t r2, out = r1 ++ t :: r2 →
       ∃ l1 l2, expanded = l1 ++ t :: l2 ∧ (t ∉ l1) ∧ (∀ y, y ∈ l1 ↔ y ∈ r1))
  ∧ expand_prefer_order [py_str "latin"; py_str "zh-tw"; py_str "latin"]
      [py_str "latin0"; py_str "latin1"]
    = [py_str "latin0"; py_str "latin1"; py_str "zh-tw"].
Proof.
  intros trimmed expanded out.
  assert (out = keep_first expanded) as Hout.
  { unfold out. rewrite expand_prefer_order_keep_first.
    unfold expanded_tokens. by rewrite expanded_tokens_acc. }
  split_and!.
  - apply strip_spec.
  - done.
  - rewrite Hout. apply NoDup_keep_first.
  - intros t. rewrite Hout. apply elem_of_keep_first.
  - intros r1 t r2. rewrite Hout. apply keep_first_split.
  - by vm_compute.
Qed.

(** ** The monad *)

Lemma bind_ret_l {A B} (a : A) (k : A → M B) : bind (ret a) k = k a.
Proof. unfold bind, ret. simpl. by destruct (k a). Qed.

Lemma bind_value {A B} (m : M A) (k : A → M B) evs a :
  m = (evs, inr a) → bind m k = (evs ++ (k a).1, (k a).2).
Proof. by intros ->. Qed.

(** ** Dicts in insertion order *)

Section dict.
Context {V : Type} (val : list Z → option V).
Implicit Types d : list (list Z * V).

Lemma elem_of_dict_set d k v :
  consistent val d → val k = Some v →
  ∀ kv, kv ∈ dict_set d k v ↔ kv ∈ d ∨ kv = (k, v).
Proof.
  intros Hd Hk kv. induction d as [|[k' v'] d IH]; simpl.
  { rewrite list_elem_of_singleton, elem_of_nil. tauto. }
  assert (consistent val d) as Hd' by (intros ??; apply Hd; by right).
  case_bool_decide as Hkk.
  - subst k'. assert (v' = v) as ->.
    { specialize (Hd (k, v') ltac:(left)). simpl in Hd. congruence. }
    rewrite !elem_of_cons. tauto.
  - rewrite !elem_of_cons, IH by done. tauto.
Qed.

Lemma consistent_dict_set d k v :
  consistent val d → val k = Some v → consistent val (dict_set d k v).
Proof.
  intros Hd Hk kv [?| ->]%elem_of_dict_set; [by apply Hd|done|done|done].
Qed.
End dict.

(** ** Font Compatibility Validator *)

Section validator.
Context (w : World) (font_map : gmap (list Z) (list Z)).
Implicit Types (order : list (list Z)) (fs : list TTFont) (st : vstate).

Local Abbreviation upem_val := (tag_value w font_map unitsPerEm).
Local Abbreviation fvar_val :=
  (tag_value w font_map (λ f, has_table f "fvar")).
Local Abbreviation st_init :=
  {| upems := []; outline_kinds := ∅; var_flags := [] |}.

Lemma tag_value_font_at {V} (g : TTFont → V) tag f :
  font_at w font_map tag f → tag_value w font_map g tag = Some (g f).
Proof.
  intros (p & Hp & Hf). unfold tag_value. by rewrite Hp; simpl; rewrite Hf.
Qed.

Lemma validate_body_font_at st tag f :
  font_at w font_map tag f →
  ∃ path, font_map !! tag = Some path ∧
    validate_body w font_map st tag = ([Opened path], inr (vstep st (tag, f))).
Proof.
  intros (p & Hp & Hf). exists p. split; [done|].
  unfold validate_body, getitem, open_font. by rewrite Hp, bind_ret_l, Hf.
Qed.

(** With every font at hand the loop raises nothing. *)
Lemma validate_loop order fs st0 :
  Forall2 (font_at w font_map) order fs →
  for_each (validate_body w font_map) st0 order
  = (opened_fonts font_map order, inr (foldl vstep st0 (zip order fs))).
Proof.
  intros Hfs. revert st0.
  induction Hfs as [|tag f order fs Hf Hfs IH]; intros st0; [done|].
  destruct (validate_body_font_at st0 tag f Hf) as (p & Hp & Hbody).
  simpl. rewrite (bind_value _ _ _ _ Hbody), IH.
  unfold opened_fonts. simpl. by rewrite Hp.
Qed.

Lemma vstep_fold order fs st0 :
  Forall2 (font_at w font_map) order fs →
  consistent upem_val (upems st0) →
  consistent fvar_val (var_flags st0) →
  let st := foldl vstep st0 (zip order fs) in
  (∀ kv, kv ∈ upems st ↔
     kv ∈ upems st0 ∨ ∃ t f, (t, f) ∈ zip order fs ∧ kv = (t, unitsPerEm f))
  ∧ (∀ kv, kv ∈ var_flags st ↔
       kv ∈ var_flags st0 ∨ ∃ t f, (t, f) ∈ zip order fs
                                   ∧ kv = (t, has_table f "fvar"))
  ∧ outline_kinds st = kinds_of fs ∪ outline_kinds st0.
Proof.
  intros Hfs. revert st0.
  induction Hfs as [|tag f order fs Hf Hfs IH]; intros st0 Hu Hv.
  { simpl. split_and!; set_solver. }
  pose proof (tag_value_font_at unitsPerEm _ _ Hf) as Hut.
  pose proof (tag_value_font_at (λ f, has_table f "fvar") _ _ Hf) as Hvt.
  destruct (IH (vstep st0 (tag, f))) as (Hst_u & Hst_v & Hst_k).
  { eapply consistent_dict_set, Hut. exact Hu. }
  { eapply consistent_dict_set, Hvt. exact Hv. }
  simpl. split_and!.
  - intros kv. rewrite Hst_u. simpl.
    rewrite (elem_of_dict_set upem_val) by done.
    setoid_rewrite elem_of_cons. naive_solver.
  - intros kv. rewrite Hst_v. simpl.
    rewrite (elem_of_dict_set fvar_val) by done.
    setoid_rewrite elem_of_cons. naive_solver.
  - rewrite Hst_k. unfold kinds_of. simpl. set_solver.
Qed.

Lemma zip_elem_of_r order fs f :
  Forall2 (font_at w font_map) order fs → f ∈ fs →
  ∃ t, (t, f) ∈ zip order fs.
Proof.
  intros Hfs [i Hi]%list_elem_of_lookup.
  destruct (Forall2_lookup_r _ _ _ _ _ Hfs Hi) as (t & Ht & _).
  exists t. apply list_elem_of_lookup. exists i.
  by rewrite lookup_zip_with, Ht; simpl; rewrite Hi.
Qed.

Lemma elem_of_upems_dict order fs kv :
  Forall2 (font_at w font_map) order fs →
  kv ∈ upems_dict order fs
  ↔ ∃ t f, (t, f) ∈ zip order fs ∧ kv = (t, unitsPerEm f).
Proof.
  intros Hfs.
  destruct (vstep_fold order fs st_init Hfs) as (Hu & _);
    [by intros ? ?%elem_of_nil..|].
  unfold upems_dict. rewrite Hu. simpl. rewrite elem_of_nil. tauto.
Qed.

(** The outcome of the three checks, from the state the loop leaves. *)
Lemma validate_fonts_cases order fs :
  Forall2 (font_at w font_map) order fs →
  validate_fonts w order font_map
  = if bool_decide (1 < distinct_upems fs)%nat
    then (opened_fonts font_map order,
          inl (upem_mismatch (upems_dict order fs)))
    else if bool_decide (py_str "glyf" ∈ kinds_of fs)
            && bool_decide (py_str "cff" ∈ kinds_of fs)
    then (opened_fonts font_map order, inl outline_mismatch)
    else if bool_decide (Exists (λ f, has_table f "fvar" = true) fs)
    then (opened_fonts font_map order ++ [Printed variable_warning],
          inr tt)
    else (opened_fonts font_map order, inr tt).
Proof.
  intros Hfs.
  destruct (vstep_fold order fs st_init Hfs) as (_ & Hv & Hk);
    [by intros ? ?%elem_of_nil..|].
  unfold validate_fonts.
  rewrite (bind_value _ _ _ _ (validate_loop order fs _ Hfs)).
  set (st := foldl vstep st_init (zip order fs)) in *.
  assert ((list_to_set (upems st).*2 : gset Z)
          = list_to_set (unitsPerEm <$> fs)) as ->.
  { apply set_eq. intros u.
    rewrite !elem_of_list_to_set, !list_elem_of_fmap. split.
    - intros ([t u'] & -> & Hin).
      apply (elem_of_upems_dict order fs) in Hin
        as (t' & f & Hin & [= -> ->]); [|done].
      exists f. split; [done|]. by apply elem_of_zip_r in Hin.
    - intros (f & -> & Hin).
      destruct (zip_elem_of_r order fs f Hfs Hin) as [t Ht].
      exists (t, unitsPerEm f). split; [done|].
      apply (elem_of_upems_dict order fs); [done|]. by exists t, f. }
  fold (distinct_upems fs).
  simpl in Hk. rewrite (right_id_L ∅ (∪)) in Hk. rewrite Hk.
  assert (existsb id (var_flags st).*2
          = bool_decide (Exists (λ f, has_table f "fvar" = true) fs)) as ->.
  { apply eq_true_iff_eq.
    rewrite existsb_exists, bool_decide_eq_true, Exists_exists. split.
    - intros (b & Hin%list_elem_of_In & Hb). unfold id in Hb. subst b.
      apply list_elem_of_fmap in Hin as ([t b] & ? & Hin). simplify_eq/=.
      apply Hv in Hin as [[]%elem_of_nil|(t' & f & Hin & [= -> Hb])].
      exists f. split; [by apply elem_of_zip_r in Hin|done].
    - intros (f & Hin & Hb).
      destruct (zip_elem_of_r order fs f Hfs Hin) as [t Ht].
      exists true. split; [|done]. apply list_elem_of_In, list_elem_of_fmap.
      exists (t, true). split; [done|]. apply Hv. right.
      exists t, f. split; [done|by rewrite Hb]. }
  fold (upems_dict order fs).
  repeat case_bool_decide; simpl; by rewrite ?app_nil_r.
Qed.
End validator.

Lemma ex_font_at (a b : TTFont) :
  Forall2 (font_at (ex_world a b) ex_font_map) ex_order [a; b].
Proof.
  repeat constructor.
  - by exists (py_str "latin.ttf").
  - by exists (py_str "tw.otf").
Qed.

(** *** Variable fonts do not matter to the outcome *)

Section static.
Context (w : World) (font_map : gmap (list Z) (list Z)).

Lemma has_table_static f (t : string) :
  py_str t ≠ py_str "fvar" → has_table (static_font f) t = has_table f t.
Proof.
  intros Ht. unfold has_table. simpl. apply bool_decide_ext.
  rewrite elem_of_difference, elem_of_singleton. tauto.
Qed.

Lemma has_fvar_static f : has_table (static_font f) "fvar" = false.
Proof.
  unfold has_table. simpl. apply bool_decide_eq_false.
  rewrite elem_of_difference, elem_of_singleton. tauto.
Qed.

Lemma outline_kind_static f : outline_kind (static_font f) = outline_kind f.
Proof. unfold outline_kind. by rewrite !has_table_static. Qed.

Lemma font_at_static order fs :
  Forall2 (font_at w font_map) order fs →
  Forall2 (font_at (static_world w) font_map) order (static_font <$> fs).
Proof.
  intros Hfs. apply Forall2_fmap_r. eapply Forall2_impl; [exact Hfs|].
  intros t f (p & Hp & Hf). exists p. split; [done|].
  simpl. by rewrite lookup_fmap, Hf.
Qed.

Lemma upems_fold_static order fs st st' :
  upems st = upems st' →
  upems (foldl vstep st (zip order (static_font <$> fs)))
  = upems (foldl vstep st' (zip order fs)).
Proof.
  revert fs st st'. induction order as [|t order IH]; intros [|f fs] st st' Hst;
    simpl; try done.
  apply IH. simpl. by rewrite Hst.
Qed.

Lemma validate_fonts_static order fs :
  Forall2 (font_at w font_map) order fs →
  (validate_fonts (static_world w) order font_map).2
  = (validate_fonts w order font_map).2.
Proof.
  intros Hfs.
  rewrite (validate_fonts_cases _ _ _ _ (font_at_static _ _ Hfs)).
  rewrite (validate_fonts_cases _ _ _ _ Hfs).
  assert (distinct_upems (static_font <$> fs) = distinct_upems fs) as ->.
  { unfold distinct_upems. by rewrite <- list_fmap_compose. }
  assert (kinds_of (static_font <$> fs) = kinds_of fs) as ->.
  { unfold kinds_of. rewrite <- list_fmap_compose. f_equal.
    apply list_fmap_ext. intros ? f _. apply outline_kind_static. }
  assert (upems_dict order (static_font <$> fs) = upems_dict order fs) as ->.
  { by apply upems_fold_static. }
  repeat case_bool_decide; simpl; repeat case_bool_decide; done.
Qed.
End static.

(** The keys of a dict after an assignment. *)
Lemma dict_set_keys {V} (d : list (list Z * V)) (k : list Z) (v : V) :
  (dict_set d k v).*1 = if bool_decide (k ∈ d.*1) then d.*1 else d.*1 ++ [k].
Proof.
  induction d as [|[k' v'] d IH]; [done|]. cbn [dict_set].
  destruct (decide (k' = k)) as [->|Hne].
  - rewrite (bool_decide_eq_true_2 (k = k)) by done.
    rewrite bool_decide_eq_true_2 by (by left). done.
  - rewrite (bool_decide_eq_false_2 (k' = k)) by done.
    rewrite !fmap_cons, IH. cbn [fst].
    destruct (decide (k ∈ d.*1)) as [Hin|Hnin].
    + rewrite !bool_decide_eq_true_2; [done|by right|done].
    + rewrite !bool_decide_eq_false_2; [done| |done].
      rewrite not_elem_of_cons. split; [congruence|done].
Qed.

(** The keys of [upems] after the loop: the keys it had, then the tags of
    the order that were not among them, each where it comes first. *)
Lemma upems_keys (order : list (list Z)) (fs : list TTFont) (st : vstate) :
  length order = length fs →
  (upems (foldl vstep st (zip order fs))).*1
  = (upems st).*1 ++ keep_first (filter (λ t, t ∉ (upems st).*1) order).
Proof.
  revert fs st. induction order as [|t order IH]; intros [|f fs] st Hlen;
    simplify_eq/=; [by rewrite app_nil_r|].
  rewrite IH by done. cbn [vstep upems fst snd]. rewrite dict_set_keys.
  rewrite filter_cons. case_bool_decide as Ht.
  - by rewrite decide_False by tauto.
  - rewrite decide_True by done. cbn [keep_first].
    rewrite <- app_assoc. cbn [app]. do 2 f_equal.
    rewrite <- keep_first_filter, list_filter_filter. f_equal.
    apply list_filter_iff. intros x.
    rewrite elem_of_app, list_elem_of_singleton. tauto.
Qed.

Lemma keep_all (l : list (list Z)) : filter (λ t, t ∉ []) l = l.
Proof.
  induction l as [|x l IH]; [done|]. rewrite filter_cons.
  rewrite decide_True by apply not_elem_of_nil. by rewrite IH.
Qed.

(** C4. With every font of the order at hand, [validate_fonts] stops on
    the units-per-em mismatch, a [SystemExit] whose message starts with
    "unitsPerEm mismatch across inputs (must match for merge). Found: ",
    if and only if the fonts carry more than one distinct units-per-em
    value.  The message then goes on with the entries [tag=value],
    separated by a comma and a space: one entry for every tag of the
    order, at the place where the tag comes first, with the units-per-em
    value of its font.  Two fonts at 1000 pass this check; for fonts at
    1000 and 2048 the message ends in [t1=1000, t2=2048]. *)
Theorem validate_fonts_upem (w : World) (order : list (list Z))
    (font_map : gmap (list Z) (list Z)) (fs : list TTFont) :
  Forall2 (font_at w font_map) order fs →
  let result := (validate_fonts w order font_map).2 in
  let found :=
    py_str "unitsPerEm mismatch across inputs (must match for merge). Found: "
  in
  ((∃ msg, result = inl (SystemExit (found ++ msg)))
   ↔ (1 < distinct_upems fs)%nat)
  ∧ ((1 < distinct_upems fs)%nat →
     ∃ d : list (list Z * Z),
       result
       = inl (SystemExit
                (found ++ join (py_str ", ")
                            ((λ tu, tu.1 ++ py_str "=" ++ str_of_int tu.2)
                               <$> d)))
       ∧ d.*1 = keep_first order
       ∧ ∀ t u, (t, u) ∈ d ↔ ∃ f, (t, f) ∈ zip order fs ∧ u = unitsPerEm f)
  ∧ (∀ f g, fs = [f; g] → unitsPerEm f = 1000 → unitsPerEm g = 1000 →
     ∀ msg, result ≠ inl (SystemExit (found ++ msg)))
  ∧ (∀ t1 t2 f g, order = [t1; t2] → fs = [f; g] →
     unitsPerEm f = 1000 → unitsPerEm g = 2048 →
     result
     = inl (SystemExit
              (found ++ t1 ++ py_str "=1000, " ++ t2 ++ py_str "=2048"))).
Proof.
  intros Hfs result found.
  assert (∀ msg, result = inl (SystemExit (found ++ msg)) →
                 (1 < distinct_upems fs)%nat) as Honly.
  { intros msg. unfold result. rewrite (validate_fonts_cases _ _ _ _ Hfs).
    repeat case_bool_decide; cbn [snd andb]; done. }
  assert ((1 < distinct_upems fs)%nat →
          result = inl (upem_mismatch (upems_dict order fs))) as Hif.
  { intros Hd. unfold result. rewrite (validate_fonts_cases _ _ _ _ Hfs).
    by rewrite bool_decide_eq_true_2. }
  assert (∀ d, upem_mismatch d
               = SystemExit
                   (found ++ join (py_str ", ")
                               ((λ tu, tu.1 ++ py_str "=" ++ str_of_int tu.2)
                                  <$> d))) as Hmsg.
  { intros d. unfold upem_mismatch, upem_message, found.
    rewrite app_assoc. reflexivity. }
  split_and!.
  - split; [intros [msg Hp]; by eapply Honly|].
    intros Hd. eexists. by rewrite (Hif Hd), Hmsg.
  - intros Hd. exists (upems_dict order fs). split_and!.
    + by rewrite (Hif Hd), Hmsg.
    + unfold upems_dict.
      rewrite upems_keys by (by eapply Forall2_length).
      cbn [upems fmap list_fmap app]. by rewrite keep_all.
    + intros t u. rewrite (elem_of_upems_dict w font_map) by done.
      naive_solver.
  - intros f g -> Hf Hg msg Hp. apply Honly in Hp.
    unfold distinct_upems in Hp. simpl in Hp. rewrite Hf, Hg in Hp.
    vm_compute in Hp. lia.
  - intros t1 t2 f g -> -> Hf Hg. rewrite Hif, Hmsg.
    + assert (t1 ≠ t2) as Hne.
      { intros ->.
        apply Forall2_cons_1 in Hfs as [(p1 & Hp1 & Hf1) Hfs].
        apply Forall2_cons_1 in Hfs as [(p2 & Hp2 & Hf2) _].
        assert (f = g) by congruence. subst g. lia. }
      unfold upems_dict. cbn [zip zip_with foldl vstep upems dict_set fst snd].
      rewrite bool_decide_eq_false_2 by done.
      cbn [dict_set fmap list_fmap join fst snd]. rewrite Hf, Hg.
      rewrite <- !app_assoc. reflexivity.
    + unfold distinct_upems. simpl. rewrite Hf, Hg. vm_compute. lia.
Qed.

Lemma validate_fonts_upem_witness :
  Forall2 (font_at (ex_world (font_with ["glyf"] 1000 [])
                             (font_with ["glyf"] 2048 []))
             ex_font_map)
    ex_order [font_with ["glyf"] 1000 []; font_with ["glyf"] 2048 []]
  ∧ (validate_fonts (ex_world (font_with ["glyf"] 1000 [])
                              (font_with ["glyf"] 2048 []))
       ex_order ex_font_map).2
    = inl (SystemExit
             (py_str "unitsPerEm mismatch across inputs (must match for merge). Found: "
              ++ py_str "latin0" ++ py_str "=1000, "
              ++ py_str "zh-tw" ++ py_str "=2048")).
Proof.
  split; [apply ex_font_at|].
  pose proof (validate_fonts_upem _ _ _ _
                (ex_font_at (font_with ["glyf"] 1000 [])
                            (font_with ["glyf"] 2048 [])))
    as (_ & _ & _ & Hrej).
  by apply (Hrej _ _ _ _ eq_refl eq_refl).
Defined.

(** The claim of C5 as it is worded fails where the units-per-em check
    comes first: a glyf font at 2048 next to a cff font at 1000 shows both
    outline kinds, and the run stops on the units-per-em mismatch, not on
    the outline mismatch. *)
Lemma outline_mismatch_behind_upem :
  let fs := [font_with ["glyf"] 2048 []; font_with ["CFF "] 1000 []] in
  let w := ex_world (font_with ["glyf"] 2048 []) (font_with ["CFF "] 1000 []) in
  Forall2 (font_at w ex_font_map) ex_order fs
  ∧ py_str "glyf" ∈ kinds_of fs
  ∧ py_str "cff" ∈ kinds_of fs
  ∧ (validate_fonts w ex_order ex_font_map).2
    = inl (SystemExit (upem_message [py_str "latin0=2048"; py_str "zh-tw=1000"]))
  ∧ (validate_fonts w ex_order ex_font_map).2 ≠ inl outline_mismatch.
Proof.
  split_and!.
  - apply ex_font_at.
  - by apply (bool_decide_unpack _); vm_compute.
  - by apply (bool_decide_unpack _); vm_compute.
  - by vm_compute.
  - by vm_compute.
Qed.

(** C5, amended. With every font of the order at hand, [validate_fonts]
    stops on the outline mismatch exactly when the fonts share one
    units-per-em value and the observed kinds have both "glyf" and "cff";
    fonts that are all "cff" and share one units-per-em value are
    accepted; and the outcome is the one of the same run with every
    variation-axis table taken away, a successful run printing the warning
    exactly when some font has one. *)
Theorem validate_fonts_outline (w : World) (order : list (list Z))
    (font_map : gmap (list Z) (list Z)) (fs : list TTFont) :
  Forall2 (font_at w font_map) order fs →
  let result := (validate_fonts w order font_map).2 in
  (result = inl outline_mismatch
   ↔ (distinct_upems fs ≤ 1)%nat
     ∧ py_str "glyf" ∈ kinds_of fs ∧ py_str "cff" ∈ kinds_of fs)
  ∧ ((distinct_upems fs ≤ 1)%nat →
     Forall (λ f, outline_kind f = py_str "cff") fs → result = inr tt)
  ∧ (validate_fonts (static_world w) order font_map).2 = result
  ∧ (result = inr tt →
     (validate_fonts w order font_map).1
     = opened_fonts font_map order
       ++ if bool_decide (Exists (λ f, has_table f "fvar" = true) fs)
          then [Printed variable_warning] else []).
Proof.
  intros Hfs result. split_and!.
  - unfold result. rewrite (validate_fonts_cases _ _ _ _ Hfs).
    repeat case_bool_decide; cbn [snd andb]; split; try done; try lia;
      try (intros (? & ? & ?); done).
    all: intros _; split_and!; [lia|done..].
  - intros Hd Hcff. unfold result. rewrite (validate_fonts_cases _ _ _ _ Hfs).
    rewrite bool_decide_eq_false_2 by lia.
    rewrite (bool_decide_eq_false_2 (py_str "glyf" ∈ kinds_of fs)).
    { simpl. by case_bool_decide. }
    unfold kinds_of. rewrite elem_of_list_to_set, list_elem_of_fmap.
    intros (f & Hk & Hin). rewrite Forall_forall in Hcff.
    rewrite (Hcff f Hin) in Hk. done.
  - by apply (validate_fonts_static _ _ _ fs).
  - unfold result. rewrite (validate_fonts_cases _ _ _ _ Hfs).
    repeat case_bool_decide; cbn [fst snd andb]; try done.
    all: intros _; by rewrite ?app_nil_r.
Qed.

Lemma validate_fonts_outline_witness :
  Forall2 (font_at (ex_world (font_with ["glyf"] 1000 [])
                             (font_with ["CFF "; "fvar"] 1000 []))
             ex_font_map)
    ex_order [font_with ["glyf"] 1000 []; font_with ["CFF "; "fvar"] 1000 []]
  ∧ (validate_fonts (ex_world (font_with ["glyf"] 1000 [])
                              (font_with ["CFF "; "fvar"] 1000 []))
       ex_order ex_font_map).2
    = inl outline_mismatch.
Proof.
  split; [apply ex_font_at|].
  pose proof (validate_fonts_outline _ _ _ _
                (ex_font_at (font_with ["glyf"] 1000 [])
                            (font_with ["CFF "; "fvar"] 1000 [])))
    as (Hiff & _).
  apply Hiff. split_and!.
  - vm_compute. lia.
  - by apply (bool_decide_unpack _); vm_compute.
  - by apply (bool_decide_unpack _); vm_compute.
Defined.

(** The claim of C9 as it is worded fails for the same reason: a font with
    both outline tables at 1000 next to a glyf font at 2048 does not pass
    validation, the run stops on the units-per-em mismatch. *)
Lemma mixed_in_one_rejected_on_upem :
  let fs := [font_with ["glyf"; "CFF "] 1000 []; font_with ["glyf"] 2048 []] in
  let w := ex_world (font_with ["glyf"; "CFF "] 1000 [])
                    (font_with ["glyf"] 2048 []) in
  Forall2 (font_at w ex_font_map) ex_order fs
  ∧ Forall (λ f, outline_kind f = py_str "mixed-in-one"
                 ∨ outline_kind f = py_str "glyf") fs
  ∧ Exists (λ f, outline_kind f = py_str "mixed-in-one") fs
  ∧ (validate_fonts w ex_order ex_font_map).2
    = inl (SystemExit (upem_message [py_str "latin0=1000"; py_str "zh-tw=2048"]))
  ∧ (validate_fonts w ex_order ex_font_map).2 ≠ inr tt.
Proof.
  split_and!.
  - apply ex_font_at.
  - apply Forall_cons. split; [left; by vm_compute|].
    apply Forall_cons. split; [right; by vm_compute|]. apply Forall_nil_2.
  - left. by vm_compute.
  - by vm_compute.
  - by vm_compute.
Qed.

(** C9, amended. A font with both a glyf table and a CFF or CFF2 table is
    classified "mixed-in-one", neither "glyf" nor "cff"; when every font of
    the order is of that class or of one other kind [k], [validate_fonts]
    never stops on the outline mismatch, and it passes as soon as the
    fonts share one units-per-em value. *)
Theorem mixed_in_one_no_outline_mismatch (w : World)
    (order : list (list Z)) (font_map : gmap (list Z) (list Z))
    (fs : list TTFont) (k : list Z) :
  Forall2 (font_at w font_map) order fs →
  Forall (λ f, outline_kind f = py_str "mixed-in-one" ∨ outline_kind f = k)
    fs →
  let result := (validate_fonts w order font_map).2 in
  (∀ f, has_table f "glyf" = true →
        has_table f "CFF " = true ∨ has_table f "CFF2" = true →
        outline_kind f = py_str "mixed-in-one"
        ∧ outline_kind f ≠ py_str "glyf" ∧ outline_kind f ≠ py_str "cff")
  ∧ kinds_of fs ⊆ {[ py_str "mixed-in-one"; k ]}
  ∧ result ≠ inl outline_mismatch
  ∧ ((distinct_upems fs ≤ 1)%nat → result = inr tt).
Proof.
  intros Hfs Hk result.
  assert (kinds_of fs ⊆ {[ py_str "mixed-in-one"; k ]}) as Hsub.
  { intros x. unfold kinds_of.
    rewrite elem_of_list_to_set, list_elem_of_fmap.
    intros (f & -> & Hin). rewrite Forall_forall in Hk.
    destruct (Hk f Hin) as [-> | ->]; set_solver. }
  assert (¬ (py_str "glyf" ∈ kinds_of fs ∧ py_str "cff" ∈ kinds_of fs))
    as Hnot.
  { intros [Hg Hc]. apply Hsub in Hg. apply Hsub in Hc.
    rewrite elem_of_union, !elem_of_singleton in Hg, Hc.
    destruct Hg as [Hg|Hg]; [done|]. destruct Hc as [Hc|Hc]; [done|].
    by rewrite <- Hg in Hc. }
  split_and!.
  - intros f Hg Hc. unfold outline_kind. rewrite Hg.
    assert (has_table f "CFF " || has_table f "CFF2" = true) as ->.
    { apply orb_true_iff. tauto. }
    cbn [andb]. split_and!; [done|by vm_compute..].
  - done.
  - unfold result. rewrite (validate_fonts_cases _ _ _ _ Hfs).
    repeat case_bool_decide; cbn [snd andb]; try done.
    all: exfalso; apply Hnot; by split.
  - intros Hd. unfold result. rewrite (validate_fonts_cases _ _ _ _ Hfs).
    rewrite bool_decide_eq_false_2 by lia.
    repeat case_bool_decide; cbn [snd andb]; try done.
    all: exfalso; apply Hnot; by split.
Qed.

Lemma mixed_in_one_no_outline_mismatch_witness :
  let fs := [font_with ["glyf"; "CFF2"] 1000 []; font_with ["CFF "] 1000 []] in
  let w := ex_world (font_with ["glyf"; "CFF2"] 1000 [])
                    (font_with ["CFF "] 1000 []) in
  Forall2 (font_at w ex_font_map) ex_order fs
  ∧ Forall (λ f, outline_kind f = py_str "mixed-in-one"
                 ∨ outline_kind f = py_str "cff") fs
  ∧ (validate_fonts w ex_order ex_font_map).2 = inr tt.
Proof.
  assert (Forall (λ f, outline_kind f = py_str "mixed-in-one"
                       ∨ outline_kind f = py_str "cff")
            [font_with ["glyf"; "CFF2"] 1000 []; font_with ["CFF "] 1000 []])
    as Hk.
  { apply Forall_cons. split; [left; by vm_compute|].
    apply Forall_cons. split; [right; by vm_compute|]. apply Forall_nil_2. }
  split_and!; [apply ex_font_at|exact Hk|].
  pose proof (mixed_in_one_no_outline_mismatch _ _ _ _ _ (ex_font_at _ _) Hk)
    as (_ & _ & _ & Hpass).
  apply Hpass. vm_compute. lia.
Defined.

(** ** Codepoint Set Builder *)

Section builder.
Context (w : World).
Implicit Types (args : Args) (target : gset Z).

Lemma elem_of_range_set lo hi u :
  u ∈ (list_to_set (range lo hi) : gset Z) ↔ lo ≤ u < hi.
Proof. unfold range. rewrite elem_of_list_to_set, elem_of_seqZ. lia. Qed.

Lemma size_range_set lo hi :
  size (list_to_set (range lo hi) : gset Z) = Z.to_nat (hi - lo).
Proof.
  unfold range. rewrite size_list_to_set by apply NoDup_seqZ.
  apply length_seqZ.
Qed.

Lemma build_target_eq args :
  build_target w args
  = let! target := corpus_target w args in ret (add_blocks args target).
Proof.
  unfold build_target, corpus_target, add_blocks.
  by destruct (given (corpus args)).
Qed.

Lemma build_target_result args :
  build_target w args
  = ((corpus_target w args).1,
     match (corpus_target w args).2 with
     | inl e => inl e
     | inr target => inr (add_blocks args target)
     end).
Proof.
  rewrite build_target_eq. unfold bind.
  destruct (corpus_target w args) as [evs [e|t]]; simpl; [done|].
  by rewrite app_nil_r.
Qed.

Lemma add_blocks_subseteq args target : target ⊆ add_blocks args target.
Proof.
  unfold add_blocks, add_range.
  repeat match goal with
         | |- context [list_to_set ?l] =>
             generalize (list_to_set l : gset Z); intros ?
         end.
  generalize LATIN_1_SUP. intros ?.
  destruct (add_latin1 args), (add_cjk_punct args),
    (add_jp_syllabaries args), (add_halfwidth args), (add_han_basic args);
    set_solver.
Qed.

(** Reading corpus files that are all there raises nothing. *)
Lemma read_corpus_loop (paths : list (list Z)) (chars : gset (list Z)) :
  Forall (λ p, is_Some (texts w !! p)) paths →
  ∃ evs chars',
    for_each (λ chars p,
        let! t := read_text w p in ret (chars ∪ chars_of t)) chars paths
    = (evs, inr chars').
Proof.
  intros Hp. revert chars. induction Hp as [|p paths [t Ht] _ IH];
    intros chars; simpl.
  { by eexists _, _. }
  unfold read_text at 1. rewrite Ht.
  destruct (IH (chars ∪ chars_of t)) as (evs & chars' & Hloop).
  exists (Opened p :: evs), chars'.
  unfold bind at 1. simpl. by rewrite Hloop.
Qed.

Lemma corpus_target_result args :
  Forall (λ p, is_Some (texts w !! p)) (default [] (corpus args)) →
  ∃ evs target, corpus_target w args = (evs, inr target).
Proof.
  intros Hp. unfold corpus_target.
  destruct (given (corpus args)); [|by eexists _, _].
  unfold read_corpus_chars.
  destruct (read_corpus_loop _ ∅ Hp) as (evs & chars & Hloop).
  rewrite (bind_value _ _ _ _ Hloop). simpl.
  unfold bind. simpl. by eexists _, _.
Qed.

Lemma corpus_target_ascii args target :
  (corpus_target w args).2 = inr target → ASCII_BASIC ⊆ target.
Proof.
  unfold corpus_target. destruct (given (corpus args)); simpl.
  - unfold bind.
    destruct (read_corpus_chars w (default [] (corpus args))) as [evs [e|c]];
      simpl; [done|].
    intros [= <-]. set_solver.
  - intros [= <-]. set_solver.
Qed.
End builder.

(** C6. [ASCII_BASIC] is the set of the 95 codepoints 0x20 to 0x7E; with
    no corpus and no flag [build_target] returns it, reading nothing;
    whatever the corpus and the flags, a target that is returned contains
    it; and a target is returned whenever the corpus files can be read. *)
Theorem build_target_ascii (w : World) (args : Args) :
  (∀ u, u ∈ ASCII_BASIC ↔ 0x20 ≤ u ≤ 0x7E)
  ∧ size ASCII_BASIC = 95%nat
  ∧ (given (corpus args) = false →
     add_latin1 args = false → add_cjk_punct args = false →
     add_jp_syllabaries args = false → add_halfwidth args = false →
     add_han_basic args = false →
     build_target w args = ([], inr ASCII_BASIC))
  ∧ (∀ target, (build_target w args).2 = inr target → ASCII_BASIC ⊆ target)
  ∧ (Forall (λ p, is_Some (texts w !! p)) (default [] (corpus args)) →
     ∃ target, (build_target w args).2 = inr target
               ∧ ASCII_BASIC ⊆ target).
Proof.
  assert (∀ target, (build_target w args).2 = inr target →
                    ASCII_BASIC ⊆ target) as Hsub.
  { intros target. rewrite build_target_result. simpl.
    destruct (corpus_target w args).2 as [e|t] eqn:Ht; [done|].
    intros [= <-]. apply corpus_target_ascii in Ht.
    pose proof (add_blocks_subseteq args t). set_solver. }
  split_and!.
  - intros u. unfold ASCII_BASIC. rewrite elem_of_range_set. lia.
  - unfold ASCII_BASIC. by rewrite size_range_set.
  - intros Hc H1 H2 H3 H4 H5. rewrite build_target_result.
    unfold corpus_target, add_blocks. rewrite Hc, H1, H2, H3, H4, H5.
    unfold ret. cbn [fst snd]. by rewrite (left_id_L ∅ (∪)).
  - done.
  - intros Hp. destruct (corpus_target_result w args Hp) as (evs & t & Ht).
    assert ((build_target w args).2 = inr (add_blocks args t)) as Hb.
    { rewrite build_target_result. by rewrite Ht. }
    eauto.
Qed.

(** C7. [--add-jp-syllabaries] adds the set of the 192 codepoints 0x3040
    to 0x30FF and nothing else: the run with the flag reads the same files
    and returns the target of the run without it united with that set
    (or raises the same exception); the set is disjoint from the ASCII
    range, so that a target without any of its codepoints grows by
    exactly 192. *)
Theorem add_jp_syllabaries_adds (w : World) (args : Args) :
  let off := build_target w (set_jp false args) in
  let on := build_target w (set_jp true args) in
  (∀ u, u ∈ JP_SYLLABARIES ↔ 0x3040 ≤ u ≤ 0x30FF)
  ∧ size JP_SYLLABARIES = 192%nat
  ∧ JP_SYLLABARIES ## ASCII_BASIC
  ∧ on.1 = off.1
  ∧ (∀ e, off.2 = inl e → on.2 = inl e)
  ∧ (∀ target, off.2 = inr target →
       on.2 = inr (target ∪ JP_SYLLABARIES)
       ∧ (target ## JP_SYLLABARIES →
          size (target ∪ JP_SYLLABARIES) = (size target + 192)%nat)).
Proof.
  intros off on.
  assert (∀ u, u ∈ JP_SYLLABARIES ↔ 0x3040 ≤ u ≤ 0x30FF) as Hjp.
  { intros u. unfold JP_SYLLABARIES. rewrite elem_of_range_set. lia. }
  assert (size JP_SYLLABARIES = 192%nat) as Hsize.
  { unfold JP_SYLLABARIES. by rewrite size_range_set. }
  assert (JP_SYLLABARIES
          = list_to_set (range HIRAGANA.1 (HIRAGANA.2 + 1))
            ∪ list_to_set (range KATAKANA.1 (KATAKANA.2 + 1))) as Hsplit.
  { apply set_eq. intros u.
    rewrite Hjp, elem_of_union, !elem_of_range_set.
    unfold HIRAGANA, KATAKANA. cbn [fst snd]. lia. }
  assert (∀ t, add_blocks (set_jp true args) t
               = add_blocks (set_jp false args) t ∪ JP_SYLLABARIES) as Hblocks.
  { intros t. rewrite Hsplit. unfold add_blocks, add_range.
    cbn [set_jp add_latin1 add_cjk_punct add_jp_syllabaries add_halfwidth
         add_han_basic].
    repeat match goal with
           | |- context [list_to_set ?l] =>
               generalize (list_to_set l : gset Z); intros ?
           end.
    generalize LATIN_1_SUP. intros ?.
    apply set_eq. intros u.
    destruct (add_latin1 args), (add_cjk_punct args),
      (add_halfwidth args), (add_han_basic args);
      rewrite !elem_of_union; tauto. }
  unfold on, off. rewrite !build_target_result.
  change (corpus_target w (set_jp true args)) with (corpus_target w args).
  change (corpus_target w (set_jp false args)) with (corpus_target w args).
  cbn [fst snd]. split_and!; [done..| |done| |].
  - intros u. rewrite Hjp. unfold ASCII_BASIC. rewrite elem_of_range_set. lia.
  - intros e. by destruct (corpus_target w args).2; intros [= <-].
  - intros target. destruct (corpus_target w args).2 as [e|t]; [done|].
    intros [= <-]. split; [by rewrite Hblocks|].
    intros Hdisj. by rewrite size_union, Hsize.
Qed.

(** ** Ownership Partitioner *)

Section partitioner.
Context (order : list (list Z)) (support : gmap (list Z) (gset Z)).
Implicit Types (u : Z) (t : list Z) (st : pstate) (l : list Z).
Implicit Types (ord : list (list Z)).

Lemma find_owner_Some u t ord :
  find_owner support u ord = Some t ↔
  ∃ pre post, ord = pre ++ t :: post ∧ u ∈ support !!! t
              ∧ Forall (λ t', u ∉ support !!! t') pre.
Proof.
  induction ord as [|a ord IH]; simpl.
  { split; [done|]. intros (pre & post & Heq & _). by destruct pre. }
  case_bool_decide as Ha.
  - split.
    + intros [= ->]. by exists [], ord.
    + intros ([|b pre] & post & Heq & Ht & Hpre);
        injection Heq as -> ->; [done|].
      by apply Forall_cons in Hpre as [? _].
  - rewrite IH. split.
    + intros (pre & post & -> & Ht & Hpre).
      exists (a :: pre), post. split_and!; [done..|by constructor].
    + intros ([|b pre] & post & Heq & Ht & Hpre);
        injection Heq as -> ->; [done|].
      apply Forall_cons in Hpre as [_ Hpre]. by exists pre, post.
Qed.

Lemma find_owner_None u ord :
  find_owner support u ord = None ↔ Forall (λ t, u ∉ support !!! t) ord.
Proof.
  induction ord as [|a ord IH]; simpl; [by split; [constructor|]|].
  rewrite Forall_cons. case_bool_decide; [|by rewrite IH; tauto].
  split; [done|tauto].
Qed.

Lemma owner_Some u t :
  owner order support u = Some t → t ∈ order ∧ t ≠ [] ∧ u ∈ support !!! t.
Proof.
  unfold owner. destruct (find_owner _ _ _) as [t'|] eqn:Hf; [|done].
  destruct (truthy t') eqn:Ht; [|done]. intros [= ->].
  apply find_owner_Some in Hf as (pre & post & -> & Hu & _).
  split_and!; [set_solver|by apply truthy_true|done].
Qed.

(** With no empty tag in the order, only the uncovered have no owner. *)
Lemma owner_None u :
  [] ∉ order →
  owner order support u = None ↔ Forall (λ t, u ∉ support !!! t) order.
Proof.
  intros Hne. rewrite <- find_owner_None. unfold owner.
  destruct (find_owner _ _ _) as [t|] eqn:Hf; [|done].
  apply find_owner_Some in Hf as (pre & post & -> & _).
  destruct t; [set_solver|done].
Qed.

Lemma empty_assignment_lookup (ord : list (list Z))
    (m : gmap (list Z) (gset Z)) t :
  foldl (λ m tag, <[tag := ∅]> m) m ord !! t
  = if bool_decide (t ∈ ord) then Some ∅ else m !! t.
Proof.
  revert m. induction ord as [|a ord IH]; intros m; simpl; [done|].
  rewrite IH. case_bool_decide as Hin.
  - rewrite bool_decide_eq_true_2; [done|by right].
  - destruct (decide (t = a)) as [->|Hne].
    + rewrite lookup_insert_eq. rewrite bool_decide_eq_true_2; [done|by left].
    + rewrite lookup_insert_ne by done.
      rewrite bool_decide_eq_false_2; [done|].
      rewrite elem_of_cons. tauto.
Qed.

Lemma empty_assignment_total t : empty_assignment order !!! t = ∅.
Proof.
  rewrite lookup_total_alt. unfold empty_assignment.
  rewrite empty_assignment_lookup. by case_bool_decide.
Qed.

Lemma dom_empty_assignment : dom (empty_assignment order) = list_to_set order.
Proof.
  apply set_eq. intros t. rewrite elem_of_dom, elem_of_list_to_set.
  unfold empty_assignment. rewrite empty_assignment_lookup.
  case_bool_decide; [by split; [|eauto]|].
  rewrite lookup_empty. split; [by intros [? ?]|done].
Qed.

Lemma partition_body_owned st u t :
  owner order support u = Some t →
  partition_body order support st u
  = {| assigned := <[t := {[ u ]} ∪ assigned st !!! t]> (assigned st);
       unassigned := unassigned st |}.
Proof.
  unfold owner, partition_body.
  destruct (find_owner support u order) as [t'|]; [|done].
  by destruct (truthy t'); intros [= ->].
Qed.

Lemma partition_body_unowned st u :
  owner order support u = None →
  partition_body order support st u
  = {| assigned := assigned st; unassigned := unassigned st + 1 |}.
Proof.
  unfold owner, partition_body.
  destruct (find_owner support u order) as [t'|]; [|done].
  by destruct (truthy t').
Qed.

(** What the loop over the codepoints [l] leaves. *)
Lemma partition_fold l st0 :
  let st := foldl (partition_body order support) st0 l in
  (∀ t x, x ∈ assigned st !!! t ↔
          x ∈ assigned st0 !!! t ∨ (x ∈ l ∧ owner order support x = Some t))
  ∧ unassigned st
    = unassigned st0
      + Z.of_nat (length (filter (λ u, owner order support u = None) l))
  ∧ (list_to_set order ⊆ dom (assigned st0) →
     dom (assigned st) = dom (assigned st0)).
Proof.
  revert st0. induction l as [|u l IH]; intros st0; simpl.
  { split_and!; [set_solver|lia|done]. }
  specialize (IH (partition_body order support st0 u)).
  rewrite filter_cons.
  destruct (owner order support u) as [t'|] eqn:Ho.
  - rewrite (partition_body_owned _ _ _ Ho) in *.
    destruct IH as (Ha & Hn & Hd). simpl in *.
    rewrite ?decide_False by done. split_and!; [|done|].
    + intros t x. rewrite Ha, elem_of_cons.
      destruct (decide (t = t')) as [->|Hne].
      * rewrite lookup_total_insert_eq, elem_of_union, elem_of_singleton.
        split; [intros [[->|?]|[? ?]]; eauto|].
        intros [?|[[->|?] ?]]; eauto.
      * rewrite lookup_total_insert_ne by done.
        split; [intros [?|[? ?]]; eauto|].
        intros [?|[[->|?] Hx]]; eauto. congruence.
    + intros Hsub. apply owner_Some in Ho as (Hin & _).
      rewrite Hd; rewrite dom_insert_L; set_solver.
  - rewrite (partition_body_unowned _ _ Ho) in *.
    destruct IH as (Ha & Hn & Hd). simpl in *.
    rewrite ?decide_True by done. split_and!; [|simpl; lia|done].
    intros t x. rewrite Ha, elem_of_cons.
    split; [intros [?|[? ?]]; eauto|].
    intros [?|[[->|?] Hx]]; eauto. congruence.
Qed.

Lemma elem_of_sorted (target : gset Z) u : u ∈ sorted target ↔ u ∈ target.
Proof.
  unfold sorted. by rewrite merge_sort_Permutation, elem_of_elements.
Qed.

Lemma NoDup_sorted (target : gset Z) : NoDup (sorted target).
Proof.
  unfold sorted. rewrite merge_sort_Permutation. apply NoDup_elements.
Qed.

(** The state [partition] returns, in terms of [owner]. *)
Lemma partition_spec (target : gset Z) :
  let st := partition target order support in
  (∀ t x, x ∈ assigned st !!! t ↔
          x ∈ target ∧ owner order support x = Some t)
  ∧ unassigned st
    = Z.of_nat (size (filter (λ u, owner order support u = None) target))
  ∧ dom (assigned st) = list_to_set order.
Proof.
  destruct (partition_fold (sorted target)
              {| assigned := empty_assignment order; unassigned := 0 |})
    as (Ha & Hn & Hd). simpl in *.
  split_and!.
  - intros t x. unfold partition. rewrite Ha, empty_assignment_total.
    rewrite elem_of_sorted. set_solver.
  - unfold partition. rewrite Hn, Z.add_0_l.
    rewrite <- (size_list_to_set (C:=gset Z)
                  (filter (λ u, owner order support u = None) (sorted target)))
      by apply NoDup_filter, NoDup_sorted.
    do 2 f_equal. apply set_eq. intros x.
    rewrite elem_of_list_to_set, list_elem_of_filter, elem_of_filter.
    by rewrite elem_of_sorted.
  - unfold partition. rewrite Hd; rewrite dom_empty_assignment; done.
Qed.
End partitioner.

Lemma uncovered_owner (target : gset Z) (order : list (list Z))
    (support : gmap (list Z) (gset Z)) :
  [] ∉ order →
  uncovered target order support
  = filter (λ u, owner order support u = None) target.
Proof.
  intros Hne. apply set_eq. intros u. unfold uncovered.
  by rewrite !elem_of_filter, owner_None.
Qed.

Lemma find_owner_ext (support support' : gmap (list Z) (gset Z)) u
    (ord : list (list Z)) :
  (∀ t, t ∈ ord → support' !!! t = support !!! t) →
  find_owner support' u ord = find_owner support u ord.
Proof.
  induction ord as [|a ord IH]; intros Heq; simpl; [done|].
  rewrite Heq by left. rewrite IH; [done|].
  intros t Ht. apply Heq. by right.
Qed.

Lemma partition_ext (target : gset Z) (order : list (list Z))
    (support support' : gmap (list Z) (gset Z)) :
  (∀ t, t ∈ order → support' !!! t = support !!! t) →
  partition target order support' = partition target order support.
Proof.
  intros Heq. unfold partition.
  generalize {| assigned := empty_assignment order; unassigned := 0 |}.
  induction (sorted target) as [|u l IH]; intros st; simpl; [done|].
  rewrite IH. f_equal. unfold partition_body.
  by rewrite (find_owner_ext support support').
Qed.

(** C1. For an order without an empty tag (every resolved order is one),
    the assignment has one set per tag of the order; the sets are
    pairwise disjoint and disjoint from the uncovered codepoints; their
    union with the uncovered codepoints is the target; the counter is the
    number of uncovered codepoints; and every target codepoint is either
    uncovered and in no set, or in the set of exactly one tag. *)
Theorem partition_is_partition (target : gset Z) (order : list (list Z))
    (support : gmap (list Z) (gset Z)) :
  [] ∉ order →
  let st := partition target order support in
  let free := uncovered target order support in
  dom (assigned st) = list_to_set order
  ∧ (∀ a b, a ≠ b → assigned st !!! a ## assigned st !!! b)
  ∧ (∀ a, assigned st !!! a ## free)
  ∧ ⋃ ((λ t, assigned st !!! t) <$> order) ∪ free = target
  ∧ unassigned st = Z.of_nat (size free)
  ∧ (∀ u, u ∈ target →
       (u ∈ free ∧ ∀ t, u ∉ assigned st !!! t)
       ∨ ((u ∉ free) ∧ ∃ t, t ∈ order ∧ u ∈ assigned st !!! t
                            ∧ ∀ t', u ∈ assigned st !!! t' → t' = t)).
Proof.
  intros Hne st free.
  destruct (partition_spec order support target) as (Ha & Hn & Hd).
  fold st in Ha, Hn, Hd.
  assert (∀ u, u ∈ free ↔ u ∈ target ∧ owner order support u = None)
    as Hfree.
  { intros u. unfold free. rewrite uncovered_owner by done.
    by rewrite elem_of_filter, (comm (∧)). }
  split_and!.
  - done.
  - intros a b Hab u. rewrite !Ha. intros [_ H1] [_ H2]. congruence.
  - intros a u. rewrite Ha, Hfree. intros [_ H1] [_ H2]. congruence.
  - apply set_eq. intros u.
    rewrite elem_of_union, elem_of_union_list, Hfree. split.
    + intros [(X & HX & Hu)|[? _]]; [|done].
      apply list_elem_of_fmap in HX as (t & -> & _). by apply Ha in Hu as [? _].
    + intros Hu. destruct (owner order support u) as [t|] eqn:Ho; [left|by right].
      exists (assigned st !!! t). split; [|by apply Ha].
      apply list_elem_of_fmap. exists t. split; [done|].
      by apply owner_Some in Ho as [? _].
  - by rewrite Hn, <- uncovered_owner.
  - intros u Hu. destruct (owner order support u) as [t|] eqn:Ho.
    + right. split; [rewrite Hfree; intros [_ ?]; congruence|].
      exists t. split_and!.
      * by apply owner_Some in Ho as [? _].
      * by apply Ha.
      * intros t'. rewrite Ha. intros [_ ?]. congruence.
    + left. split; [by apply Hfree|].
      intros t. rewrite Ha. intros [_ ?]. congruence.
Qed.

Lemma partition_is_partition_witness :
  let st := partition ex_target [py_str "A"; py_str "B"] ex_support in
  ([] ∉ [py_str "A"; py_str "B"])
  ∧ unassigned st
    = Z.of_nat (size (uncovered ex_target [py_str "A"; py_str "B"] ex_support))
  ∧ assigned st !!! py_str "A" = {[0x41; 0x42]}
  ∧ assigned st !!! py_str "B" = {[0x43]}
  ∧ unassigned st = 1.
Proof.
  assert ([] ∉ [py_str "A"; py_str "B"]) as Hne.
  { intros Hin. by repeat (apply elem_of_cons in Hin as [?|Hin]);
      try apply elem_of_nil in Hin. }
  pose proof (partition_is_partition ex_target _ ex_support Hne)
    as (_ & _ & _ & _ & Hn & _).
  split_and!; [exact Hne|exact Hn|by vm_compute..].
Defined.

(** *** Every resolved order is duplicate-free and has no empty tag *)

Lemma py_str_inj (s1 s2 : string) : py_str s1 = py_str s2 → s1 = s2.
Proof.
  revert s2. induction s1 as [|a s1 IH]; intros [|b s2]; simpl; try done.
  intros [= Hab Hs]. apply N2Z.inj in Hab.
  f_equal; [|by apply IH].
  by rewrite <- (ascii_N_embedding a), <- (ascii_N_embedding b), Hab.
Qed.

Lemma NoDup_latin_tags (args : Args) : NoDup (latin_tags_of args).
Proof.
  unfold latin_tags_of, range. apply NoDup_fmap_2; [|apply NoDup_seqZ].
  intros i j Hij. apply app_inv_head in Hij.
  unfold str_of_int in Hij. apply py_str_inj in Hij.
  by apply (inj pretty) in Hij.
Qed.

Lemma latin_tag_head (args : Args) t :
  t ∈ latin_tags_of args → head t = Some 108.
Proof.
  unfold latin_tags_of. by intros (i & -> & _)%list_elem_of_fmap.
Qed.

Lemma NoDup_requested_order (args : Args) : NoDup (requested_order args).
Proof.
  unfold requested_order. destruct (given (prefer_order args)).
  { rewrite expand_prefer_order_keep_first. apply NoDup_keep_first. }
  apply NoDup_app. split_and!.
  - apply NoDup_latin_tags.
  - intros t Ht%latin_tag_head Hin.
    destruct (given (ja args));
      repeat (apply elem_of_cons in Hin as [->|Hin]; [done|]);
      by apply elem_of_nil in Hin.
  - destruct (given (ja args)); simpl.
    + apply NoDup_cons. split.
      { intros Hin. repeat (apply elem_of_cons in Hin as [?|Hin]; [done|]).
        by apply elem_of_nil in Hin. }
      apply NoDup_cons. split; [|apply NoDup_singleton].
      by intros ?%list_elem_of_singleton.
    + apply NoDup_cons. split; [|apply NoDup_singleton].
      by intros ?%list_elem_of_singleton.
Qed.

Lemma foldl_insert_lookup_None (l : list (list Z * list Z))
    (m : gmap (list Z) (list Z)) t :
  m !! t = None → (∀ kv, kv ∈ l → kv.1 ≠ t) →
  foldl (λ m tp, <[tp.1 := tp.2]> m) m l !! t = None.
Proof.
  revert m. induction l as [|kv l IH]; intros m Hm Hl; simpl; [done|].
  apply IH.
  - rewrite lookup_insert_ne; [done|]. apply Hl. by left.
  - intros kv' Hin. apply Hl. by right.
Qed.

Lemma font_map_of_nil (args : Args) : font_map_of args !! [] = None.
Proof.
  unfold font_map_of.
  assert (∀ m : gmap (list Z) (list Z), m !! [] = None →
            match ja args with
            | Some (c :: p) => <[py_str "ja" := c :: p]> m
            | _ => m
            end !! [] = None) as Hja.
  { intros m Hm. destruct (ja args) as [[|c p]|]; try done.
    by rewrite lookup_insert_ne. }
  apply Hja. rewrite !lookup_insert_ne by done.
  apply foldl_insert_lookup_None; [done|].
  intros [k v] Hin%elem_of_zip_l%latin_tag_head. simpl. by intros ->.
Qed.

Lemma resolved_order_wf (args : Args) :
  NoDup (resolved_order args) ∧ [] ∉ resolved_order args.
Proof.
  unfold resolved_order, keep_valid. split.
  - apply NoDup_filter, NoDup_requested_order.
  - rewrite list_elem_of_filter, font_map_of_nil. by intros [? _].
Qed.

(** The claim of C2 as it is worded fails as soon as a third font covers
    the codepoint ahead of the two: B and C both cover 0x42 and B comes
    first, yet 0x42 goes to A, which covers it too and comes before
    both. *)
Lemma earlier_of_two_not_owner :
  let order := [py_str "A"; py_str "B"; py_str "C"] in
  let st := partition ex_target order ex_support in
  NoDup order ∧ ([] ∉ order)
  ∧ 0x42 ∈ ex_target
  ∧ 0x42 ∈ ex_support !!! py_str "B"
  ∧ 0x42 ∈ ex_support !!! py_str "C"
  ∧ order = [py_str "A"] ++ py_str "B" :: [] ++ py_str "C" :: []
  ∧ (0x42 ∉ assigned st !!! py_str "B")
  ∧ 0x42 ∈ assigned st !!! py_str "A".
Proof.
  split_and!; try (by apply (bool_decide_unpack _); vm_compute); try done.
Qed.

(** C2, amended. In a resolved order (no duplicate, no empty tag) a
    target codepoint goes to the first font of the order whose coverage
    contains it, and to no other: of two fonts that both cover it the later
    one never gets it, and the earlier one gets it when no font ahead of it
    covers the codepoint.  No codepoint is assigned to a font that does not
    cover it, and the outcome depends on the coverage sets through
    membership only. *)
Theorem first_match_wins (target : gset Z) (order : list (list Z))
    (support : gmap (list Z) (gset Z)) (u : Z) :
  NoDup order → [] ∉ order → u ∈ target →
  let st := partition target order support in
  (∀ t x, x ∈ assigned st !!! t → x ∈ target ∧ x ∈ support !!! t)
  ∧ (∀ pre a post, order = pre ++ a :: post → u ∈ support !!! a →
       Forall (λ t, u ∉ support !!! t) pre →
       u ∈ assigned st !!! a ∧ ∀ t, u ∈ assigned st !!! t → t = a)
  ∧ (∀ pre a mid b post, order = pre ++ a :: mid ++ b :: post →
       u ∈ support !!! a → u ∈ support !!! b → u ∉ assigned st !!! b)
  ∧ (∀ support', (∀ t, t ∈ order → support' !!! t = support !!! t) →
       partition target order support' = st).
Proof.
  intros Hnd Hne Hu st.
  destruct (partition_spec order support target) as (Ha & _ & _).
  fold st in Ha.
  assert (∀ pre a post, order = pre ++ a :: post → u ∈ support !!! a →
            Forall (λ t, u ∉ support !!! t) pre →
            owner order support u = Some a) as Hfirst.
  { intros pre a post Ho Hcov Hpre. unfold owner.
    assert (find_owner support u order = Some a) as ->.
    { apply find_owner_Some. by exists pre, post. }
    destruct a; [|done]. exfalso. apply Hne. rewrite Ho. set_solver. }
  split_and!.
  - intros t x [Hx Ho]%Ha. split; [done|].
    by apply owner_Some in Ho as (_ & _ & ?).
  - intros pre a post Ho Hcov Hpre.
    pose proof (Hfirst _ _ _ Ho Hcov Hpre) as Hown. split.
    + by apply Ha.
    + intros t [_ Ht]%Ha. congruence.
  - intros pre a mid b post Ho Hcova Hcovb [_ Hown]%Ha.
    unfold owner in Hown.
    destruct (find_owner support u order) as [t|] eqn:Hf; [|done].
    destruct (truthy t); [|done]. injection Hown as ->.
    apply find_owner_Some in Hf as (pre' & post' & Ho' & _ & Hpre').
    assert (length pre' = length (pre ++ a :: mid)) as Hlen.
    { apply (NoDup_lookup order _ _ b Hnd).
      - rewrite Ho'. by apply list_lookup_middle.
      - rewrite Ho.
        replace (pre ++ a :: mid ++ b :: post)
          with ((pre ++ a :: mid) ++ b :: post) by (by rewrite <- app_assoc).
        by apply list_lookup_middle. }
    assert (a ∈ pre') as Hin.
    { assert (pre' !! length pre = Some a) as Hl.
      { rewrite <- (lookup_app_l pre' (b :: post')), <- Ho', Ho.
        - by apply list_lookup_middle.
        - rewrite Hlen, length_app. simpl. lia. }
      by apply list_elem_of_lookup_2 in Hl. }
    rewrite Forall_forall in Hpre'. by apply (Hpre' a).
  - intros support' Heq. by apply partition_ext.
Qed.

Lemma first_match_wins_witness :
  let order := [py_str "A"; py_str "B"; py_str "C"] in
  let st := partition ex_target order ex_support in
  NoDup order ∧ ([] ∉ order) ∧ 0x42 ∈ ex_target
  ∧ (0x42 ∉ assigned st !!! py_str "C")
  ∧ 0x42 ∈ assigned st !!! py_str "A".
Proof.
  assert (NoDup [py_str "A"; py_str "B"; py_str "C"]) as Hnd
    by (by apply (bool_decide_unpack _); vm_compute).
  assert ([] ∉ [py_str "A"; py_str "B"; py_str "C"]) as Hne
    by (by apply (bool_decide_unpack _); vm_compute).
  assert (0x42 ∈ ex_target) as Hu
    by (by apply (bool_decide_unpack _); vm_compute).
  pose proof (first_match_wins ex_target _ ex_support 0x42 Hnd Hne Hu)
    as (_ & Hfirst & Hlater & _).
  split_and!; [done..| |].
  - apply (Hlater [py_str "A"] (py_str "B") [] (py_str "C") []); [done|..];
      by apply (bool_decide_unpack _); vm_compute.
  - apply (Hfirst [] (py_str "A") [py_str "B"; py_str "C"]); [done| |done].
    by apply (bool_decide_unpack _); vm_compute.
Defined.

(** ** The order filter of [main] *)

Lemma elem_of_keep_valid (font_map : gmap (list Z) (list Z))
    (order : list (list Z)) t :
  t ∈ keep_valid font_map order
  ↔ t ∈ order ∧ ∃ p, font_map !! t = Some p ∧ p ≠ [].
Proof.
  unfold keep_valid. rewrite list_elem_of_filter.
  destruct (font_map !! t) as [p|]; simpl.
  - rewrite truthy_true. naive_solver.
  - naive_solver.
Qed.

(** C8. The resolved order keeps, in their order, exactly the requested
    tags that the font map sends to a non-empty path; when none is left
    [main] raises [SystemExit] with the message of line 272 before opening
    any file, and the process ends with a non-zero status. *)
Theorem empty_order_is_fatal (w : World) (args : Args) :
  (∀ t, t ∈ resolved_order args
        ↔ t ∈ requested_order args
          ∧ ∃ p, font_map_of args !! t = Some p ∧ p ≠ [])
  ∧ resolved_order args `sublist_of` requested_order args
  ∧ (resolved_order args = [] →
     main w args = ([], inl no_valid_fonts)
     ∧ no_valid_fonts = SystemExit (py_str "No valid fonts in prefer order.")
     ∧ exit_status no_valid_fonts ≠ 0).
Proof.
  split_and!.
  - intros t. apply elem_of_keep_valid.
  - apply sublist_filter.
  - intros Hempty. split_and!; [|done..].
    unfold main. by rewrite Hempty.
Qed.

Example no_font_for_the_order :
  requested_order ex_args_no_font = [py_str "ja"; py_str "ko"]
  ∧ resolved_order ex_args_no_font = []
  ∧ main (ex_world (font_with ["glyf"] 1000 []) (font_with ["glyf"] 1000 []))
      ex_args_no_font
    = ([], inl no_valid_fonts).
Proof. by vm_compute. Qed.

(** ** Renamer *)

Lemma name_records_lookup (family_name subfamily : list Z) (i : Z) :
  name_records family_name subfamily !! i
  = if bool_decide (i = 1) then Some family_name
    else if bool_decide (i = 2) then Some subfamily
    else if bool_decide (i = 4)
         then Some (full_name_of family_name subfamily)
    else if bool_decide (i = 6)
         then Some (ps_name_of (full_name_of family_name subfamily))
    else None.
Proof.
  unfold name_records.
  repeat case_bool_decide; subst;
    repeat (rewrite lookup_insert_ne by done);
    by rewrite ?lookup_insert_eq, ?lookup_empty.
Qed.

Lemma insert_name_Permutation (toBytes : NameRecord → option (list Z))
    (r : NameRecord) (l : list NameRecord) :
  insert_name toBytes r l ≡ₚ r :: l.
Proof.
  induction l as [|x l IH]; simpl; [done|].
  case_bool_decide; [|done]. rewrite IH. apply perm_swap.
Qed.

Lemma sort_names_Permutation (toBytes : NameRecord → option (list Z))
    (l : list NameRecord) :
  sort_names toBytes l ≡ₚ l.
Proof.
  induction l as [|r l IH]; simpl; [done|].
  by rewrite insert_name_Permutation, IH.
Qed.

Lemma name_lt_asymm (toBytes : NameRecord → option (list Z))
    (r1 r2 : NameRecord) :
  name_lt toBytes r1 r2 → ¬ name_lt toBytes r2 r1.
Proof.
  unfold name_lt. intros H1 H2.
  by apply (irreflexivity lexico (name_key toBytes r1)); etrans.
Qed.

Lemma Sorted_insert_name (toBytes : NameRecord → option (list Z))
    (r : NameRecord) (l : list NameRecord) :
  Sorted (λ r1 r2, ¬ name_lt toBytes r2 r1) l →
  Sorted (λ r1 r2, ¬ name_lt toBytes r2 r1) (insert_name toBytes r l).
Proof.
  induction 1 as [|x l Hs IH Hhd]; simpl.
  { by repeat constructor. }
  case_bool_decide as Hlt.
  - constructor; [done|].
    destruct Hhd as [|y l Hy]; simpl.
    + constructor. by apply name_lt_asymm.
    + case_bool_decide; constructor; [done|]. by apply name_lt_asymm.
  - by repeat constructor.
Qed.

Lemma Sorted_sort_names (toBytes : NameRecord → option (list Z))
    (l : list NameRecord) :
  Sorted (λ r1 r2, ¬ name_lt toBytes r2 r1) (sort_names toBytes l).
Proof.
  induction l as [|r l IH]; simpl; [constructor|].
  by apply Sorted_insert_name.
Qed.

Lemma compile_names_cases (toBytes : NameRecord → option (list Z))
    (l : list NameRecord) :
  (Forall (λ r, is_Some (toBytes r)) l
   ∧ compile_names toBytes l = ([], inr (sort_names toBytes l)))
  ∨ (¬ Forall (λ r, is_Some (toBytes r)) l
     ∧ compile_names toBytes l = ([], inl UnicodeEncodeError)).
Proof.
  unfold compile_names.
  destruct (forallb _ l) eqn:Hall.
  - left. split; [|done]. apply Forall_forall. intros r Hr.
    rewrite forallb_forall in Hall.
    eapply bool_decide_eq_true_1, Hall. by apply list_elem_of_In.
  - right. split; [|done]. intros HF.
    assert (forallb (λ r, bool_decide (is_Some (toBytes r))) l = true);
      [|congruence].
    apply forallb_forall. intros r Hr%list_elem_of_In.
    apply bool_decide_eq_true_2. by eapply Forall_forall in HF.
Qed.

Lemma set_font_name_font (toBytes : NameRecord → option (list Z))
    (w : World) (font_path family_name subfamily : list Z) (font : TTFont) :
  fonts w !! font_path = Some font →
  set_font_name toBytes w font_path family_name subfamily
  = match (compile_names toBytes
             (rename_record (name_records family_name subfamily)
                <$> names font)).2 with
    | inl e => ([Opened font_path], inl e)
    | inr saved =>
        ([Opened font_path;
          Printed (py_str "Font renamed to: "
                   ++ full_name_of family_name subfamily)],
         inr {| fonts :=
                  <[font_path := {| tables := tables font;
                                    unitsPerEm := unitsPerEm font;
                                    cmap_tables := cmap_tables font;
                                    names := saved |}]> (fonts w);
                texts := texts w |})
    end.
Proof.
  intros Hfont. unfold set_font_name, open_font. rewrite Hfont.
  unfold compile_names, get_table, bind, emit, ret, raise. cbn [fst snd].
  destruct (forallb (λ r, bool_decide (is_Some (toBytes r)))
              (rename_record (name_records family_name subfamily)
                 <$> names font)); reflexivity.
Qed.

(** C10. The full name is the family name when the subfamily is
    "Regular" and family, space, subfamily otherwise; the PostScript name
    is the full name without its spaces.  The loop of [set_font_name]
    leaves the name records of the opened font in their places and with
    their identifiers: a record whose nameID is not 1, 2, 4 or 6 is
    unchanged, the others get the family, the subfamily, the full and the
    PostScript name.  When every string can be encoded, the font is
    saved with exactly these records, none added and none lost, sorted
    as the name table has them, and nothing else of the font or of the
    file system changes; when some string cannot be encoded, [font.save]
    raises and the run ends there. *)
Theorem set_font_name_rewrites (toBytes : NameRecord → option (list Z))
    (w : World) (font_path family_name subfamily : list Z) (font : TTFont) :
  fonts w !! font_path = Some font →
  let full_name := full_name_of family_name subfamily in
  let ps_name := ps_name_of full_name in
  let renamed :=
    rename_record (name_records family_name subfamily) <$> names font in
  (full_name = if bool_decide (subfamily = py_str "Regular")
               then family_name
               else family_name ++ [32] ++ subfamily)
  ∧ ps_name = filter (λ c, c ≠ 32) full_name
  ∧ (32 ∉ ps_name)
  ∧ length renamed = length (names font)
  ∧ (∀ i r, names font !! i = Some r →
       ∃ r', renamed !! i = Some r'
         ∧ nameID r' = nameID r ∧ platformID r' = platformID r
         ∧ platEncID r' = platEncID r ∧ langID r' = langID r
         ∧ (nameID r ∉ [1; 2; 4; 6] → r' = r)
         ∧ (nameID r = 1 → name_string r' = family_name)
         ∧ (nameID r = 2 → name_string r' = subfamily)
         ∧ (nameID r = 4 → name_string r' = full_name)
         ∧ (nameID r = 6 → name_string r' = ps_name))
  ∧ (Forall (λ r, is_Some (toBytes r)) renamed →
     ∃ font',
       set_font_name toBytes w font_path family_name subfamily
       = ([Opened font_path;
           Printed (py_str "Font renamed to: " ++ full_name)],
          inr {| fonts := <[font_path := font']> (fonts w);
                 texts := texts w |})
       ∧ tables font' = tables font
       ∧ unitsPerEm font' = unitsPerEm font
       ∧ cmap_tables font' = cmap_tables font
       ∧ names font' ≡ₚ renamed
       ∧ Sorted (λ r1 r2, ¬ name_lt toBytes r2 r1) (names font'))
  ∧ (¬ Forall (λ r, is_Some (toBytes r)) renamed →
     set_font_name toBytes w font_path family_name subfamily
     = ([Opened font_path], inl UnicodeEncodeError)).
Proof.
  intros Hfont full_name ps_name renamed. split_and!.
  - unfold full_name, full_name_of. by repeat case_bool_decide.
  - done.
  - unfold ps_name, ps_name_of, remove_char.
    rewrite list_elem_of_filter. naive_solver.
  - unfold renamed. by rewrite length_fmap.
  - intros i r Hr.
    exists (rename_record (name_records family_name subfamily) r).
    split; [by unfold renamed; rewrite list_lookup_fmap, Hr|].
    unfold rename_record. rewrite name_records_lookup.
    rewrite !elem_of_cons, elem_of_nil.
    repeat case_bool_decide; simpl; split_and!; try done;
      try (intros; lia); try naive_solver lia.
  - intros Hall.
    destruct (compile_names_cases toBytes renamed) as [[_ Hc]|[Hn _]];
      [|done].
    eexists. split.
    { rewrite (set_font_name_font _ _ _ _ _ _ Hfont).
      fold renamed. rewrite Hc. reflexivity. }
    simpl. split_and!; [done..|apply sort_names_Permutation|].
    apply Sorted_sort_names.
  - intros Hn.
    destruct (compile_names_cases toBytes renamed) as [[Hall _]|[_ Hc]];
      [done|].
    rewrite (set_font_name_font _ _ _ _ _ _ Hfont).
    fold renamed. by rewrite Hc.
Qed.

Lemma set_font_name_rewrites_witness :
  fonts ex_named_world !! py_str "merged_common.ttf"
  = Some {| tables := ∅; unitsPerEm := 1000; cmap_tables := [];
            names := ex_names |}
  ∧ full_name_of (py_str "Noto Serif CJK") (py_str "Light")
    = py_str "Noto Serif CJK Light"
  ∧ (32 ∉ ps_name_of (full_name_of (py_str "Noto Serif CJK") (py_str "Light"))).
Proof.
  assert (fonts ex_named_world !! py_str "merged_common.ttf"
          = Some {| tables := ∅; unitsPerEm := 1000; cmap_tables := [];
                    names := ex_names |}) as Hfont by done.
  pose proof (set_font_name_rewrites ex_toBytes ex_named_world
                (py_str "merged_common.ttf") (py_str "Noto Serif CJK")
                (py_str "Light") _ Hfont) as (Hfull & _ & Hps & _).
  split_and!; [exact Hfont|exact Hfull|exact Hps].
Defined.

(** The default names of a run on a font with five Windows records, and
    a family name that the ASCII record of another font cannot hold. *)
Example rename_example :
  (∃ w',
     set_font_name ex_toBytes ex_named_world (py_str "merged_common.ttf")
       (py_str "Noto Serif CJK") (py_str "Light")
     = ([Opened (py_str "merged_common.ttf");
         Printed (py_str "Font renamed to: Noto Serif CJK Light")], inr w')
     ∧ (λ r, (nameID r, name_string r))
         <$> from_option names [] (fonts w' !! py_str "merged_common.ttf")
       = [(1, py_str "Noto Serif CJK"); (2, py_str "Light");
          (3, py_str "old"); (4, py_str "Noto Serif CJK Light");
          (6, py_str "NotoSerifCJKLight")])
  ∧ set_font_name ex_toBytes ex_iso_world (py_str "merged_common.ttf")
      [0x601D; 0x6E90] (py_str "Regular")
    = ([Opened (py_str "merged_common.ttf")], inl UnicodeEncodeError).
Proof. split; [eexists; split|]; by vm_compute. Qed.


(** * Further properties of the script *)

(** ** Codepoint Set Builder: the corpus and the blocks *)

Lemma elem_of_add_range (s : gset Z) (lo hi u : Z) :
  u ∈ add_range s lo hi ↔ u ∈ s ∨ lo ≤ u ≤ hi.
Proof.
  unfold add_range. rewrite elem_of_union, elem_of_range_set.
  intuition lia.
Qed.

Lemma elem_of_chars_of (t : list Z) (c : list Z) :
  c ∈ chars_of t ↔ ∃ z, c = [z] ∧ z ∈ t.
Proof.
  unfold chars_of. rewrite elem_of_list_to_set, list_elem_of_fmap. naive_solver.
Qed.

(** The characters the corpus loop has collected when it ends well. *)
Lemma read_corpus_loop_chars (w : World) (paths : list (list Z))
    (chars chars' : gset (list Z)) evs :
  for_each (λ chars p,
      let! t := read_text w p in ret (chars ∪ chars_of t)) chars paths
  = (evs, inr chars') →
  evs = Opened <$> paths
  ∧ ∀ c, c ∈ chars' ↔
         c ∈ chars ∨ ∃ p t, p ∈ paths ∧ texts w !! p = Some t ∧ c ∈ chars_of t.
Proof.
  revert chars evs. induction paths as [|p paths IH]; intros chars evs; simpl.
  { intros [= <- <-]. split; [done|]. intros c. split; [by left|].
    intros [?|(p & t & []%elem_of_nil & _)]. done. }
  unfold read_text at 1. destruct (texts w !! p) as [t|] eqn:Ht; [|done].
  unfold bind at 1. simpl.
  destruct (for_each _ (chars ∪ chars_of t) paths) as [evs' [e|chars'']] eqn:Hloop;
    simpl; [done|].
  intros [= <- <-]. destruct (IH _ _ Hloop) as (-> & Hc). split; [done|].
  intros c. rewrite Hc, elem_of_union. setoid_rewrite elem_of_cons.
  split.
  - intros [[?|?]|(p' & t' & ? & ? & ?)]; eauto 10.
  - intros [?|(p' & t' & [->|?] & Ht' & ?)]; eauto 10.
    left. right. congruence.
Qed.

Lemma elem_of_add_blocks (args : Args) (target : gset Z) (u : Z) :
  u ∈ add_blocks args target ↔
    u ∈ target
    ∨ (add_latin1 args = true ∧ 0xA0 ≤ u ≤ 0xFF)
    ∨ (add_cjk_punct args = true ∧ 0x3000 ≤ u ≤ 0x303F)
    ∨ (add_jp_syllabaries args = true ∧ 0x3040 ≤ u ≤ 0x30FF)
    ∨ (add_halfwidth args = true ∧ 0xFF00 ≤ u ≤ 0xFFEF)
    ∨ (add_han_basic args = true
       ∧ (0x4E00 ≤ u ≤ 0x9FFF ∨ 0x3400 ≤ u ≤ 0x4DBF ∨ 0xF900 ≤ u ≤ 0xFAFF)).
Proof.
  unfold add_blocks, LATIN_1_SUP, CJK_PUNCT, HIRAGANA, KATAKANA, HALFWIDTH,
    CJK_UNIFIED, CJK_EXT_A, CJK_COMPAT. cbn [fst snd].
  destruct (add_latin1 args), (add_cjk_punct args), (add_jp_syllabaries args),
    (add_halfwidth args), (add_han_basic args);
    rewrite ?elem_of_add_range, ?elem_of_union, ?elem_of_range_set;
    intuition (try discriminate; try lia).
Qed.

(** X1. A target that [build_target] returns holds exactly the printable
    ASCII codepoints, the code points that occur in a corpus text, and the
    ranges of the enabled flags. *)
Theorem build_target_membership (w : World) (args : Args) (target : gset Z) :
  (build_target w args).2 = inr target →
  ∀ u, u ∈ target ↔
    0x20 ≤ u ≤ 0x7E
    ∨ (∃ p t, p ∈ default [] (corpus args) ∧ texts w !! p = Some t ∧ u ∈ t)
    ∨ (add_latin1 args = true ∧ 0xA0 ≤ u ≤ 0xFF)
    ∨ (add_cjk_punct args = true ∧ 0x3000 ≤ u ≤ 0x303F)
    ∨ (add_jp_syllabaries args = true ∧ 0x3040 ≤ u ≤ 0x30FF)
    ∨ (add_halfwidth args = true ∧ 0xFF00 ≤ u ≤ 0xFFEF)
    ∨ (add_han_basic args = true
       ∧ (0x4E00 ≤ u ≤ 0x9FFF ∨ 0x3400 ≤ u ≤ 0x4DBF ∨ 0xF900 ≤ u ≤ 0xFAFF)).
Proof.
  rewrite build_target_result. cbn [snd].
  destruct (corpus_target w args).2 as [e|t0] eqn:Hc; [done|].
  intros [= <-] u. rewrite elem_of_add_blocks.
  assert (u ∈ t0 ↔ 0x20 ≤ u ≤ 0x7E
          ∨ ∃ p t, p ∈ default [] (corpus args) ∧ texts w !! p = Some t ∧ u ∈ t)
    as ->; [|tauto].
  revert Hc. unfold corpus_target.
  destruct (corpus args) as [[|p0 paths]|] eqn:Hcorpus;
    cbn [given from_option id].
  - intros [= <-]. rewrite (left_id_L ∅ (∪)). unfold ASCII_BASIC.
    rewrite elem_of_range_set. split; [intros ?; left; lia|].
    intros [?|(p & t & []%elem_of_nil & _)]. lia.
  - unfold read_corpus_chars.
    match goal with
    | |- context [for_each ?f ?a ?l] =>
        destruct (for_each f a l) as [evs [e|chars]] eqn:Hloop
    end; [by unfold bind; simpl|].
    apply read_corpus_loop_chars in Hloop as (_ & Hchars).
    unfold bind, ret. cbn [fst snd]. intros [= <-].
    rewrite (left_id_L ∅ (∪)), elem_of_union. unfold ASCII_BASIC.
    rewrite elem_of_range_set. unfold chars_to_codepoints.
    rewrite elem_of_map. setoid_rewrite elem_of_filter.
    setoid_rewrite Hchars. setoid_rewrite elem_of_chars_of.
    split.
    + intros [?|(c & -> & _ & [[]%elem_of_empty|(p & t & Hp & Ht & z & -> & Hz)])];
        [left; lia|right]. simpl. eauto.
    + intros [?|(p & t & Hp & Ht & Hu)]; [left; lia|right].
      exists [u]. split_and!; [done|done|done|]. right. eauto 10.
  - intros [= <-]. rewrite (left_id_L ∅ (∪)). unfold ASCII_BASIC.
    rewrite elem_of_range_set. split; [intros ?; left; lia|].
    intros [?|(p & t & []%elem_of_nil & _)]. lia.
Qed.

Lemma build_target_membership_witness :
  ∃ target,
    (build_target ex_corpus_world (ex_corpus_args [py_str "book.txt"])).2
    = inr target
    ∧ 0x4E00 ∈ target.
Proof.
  assert (∃ target,
            (build_target ex_corpus_world
               (ex_corpus_args [py_str "book.txt"])).2 = inr target)
    as [target Ht].
  { eexists. vm_compute. reflexivity. }
  exists target. split; [exact Ht|].
  apply (build_target_membership _ _ _ Ht). right. left.
  exists (py_str "book.txt"), [0x3042; 0x41; 0x3042; 0x4E00].
  split_and!; [by left|done|].
  by apply (bool_decide_unpack _); vm_compute.
Defined.

Lemma read_corpus_loop_fail (w : World) (ok rest : list (list Z))
    (p : list Z) (chars : gset (list Z)) :
  Forall (λ q, is_Some (texts w !! q)) ok → texts w !! p = None →
  for_each (λ chars q,
      let! t := read_text w q in ret (chars ∪ chars_of t)) chars
    (ok ++ p :: rest)
  = (Opened <$> ok, inl (OSError p)).
Proof.
  intros Hok Hp. revert chars.
  induction Hok as [|q ok [t Ht] _ IH]; intros chars; simpl.
  { unfold read_text at 1. by rewrite Hp. }
  unfold read_text at 1. rewrite Ht. unfold bind at 1. simpl.
  by rewrite IH.
Qed.

Lemma build_target_fails_at (w : World) (args : Args)
    (ok rest : list (list Z)) (p : list Z) :
  corpus args = Some (ok ++ p :: rest) →
  Forall (λ q, is_Some (texts w !! q)) ok →
  texts w !! p = None →
  build_target w args = (Opened <$> ok, inl (OSError p)).
Proof.
  intros Hc Hok Hp. rewrite build_target_result.
  assert (corpus_target w args = (Opened <$> ok, inl (OSError p))) as ->;
    [|done].
  unfold corpus_target, read_corpus_chars. rewrite Hc.
  assert (given (Some (ok ++ p :: rest)) = true) as -> by by destruct ok.
  cbn [from_option id].
  rewrite (read_corpus_loop_fail w ok rest p ∅ Hok Hp). done.
Qed.

(** X2. When a corpus file cannot be read, [build_target] raises the
    [OSError] of the first such file, after opening the files listed
    before it and nothing else; no target is returned. *)
Theorem build_target_unreadable_corpus (w : World) (args : Args)
    (ok rest : list (list Z)) (p : list Z) :
  corpus args = Some (ok ++ p :: rest) →
  Forall (λ q, is_Some (texts w !! q)) ok →
  texts w !! p = None →
  build_target w args = (Opened <$> ok, inl (OSError p)).
Proof. apply build_target_fails_at. Qed.

Lemma build_target_unreadable_corpus_witness :
  build_target ex_corpus_world
    (ex_corpus_args [py_str "book.txt"; py_str "gone.txt"; py_str "book.txt"])
  = ([Opened (py_str "book.txt")], inl (OSError (py_str "gone.txt"))).
Proof.
  apply (build_target_unreadable_corpus ex_corpus_world _
           [py_str "book.txt"] [py_str "book.txt"] (py_str "gone.txt")).
  - done.
  - by repeat constructor.
  - done.
Defined.

Lemma size_union_le (X Y : gset Z) : (size (X ∪ Y) ≤ size X + size Y)%nat.
Proof.
  rewrite size_union_alt.
  assert (size (Y ∖ X) ≤ size Y)%nat; [|lia].
  apply subseteq_size. set_solver.
Qed.

Ltac bound_union X :=
  lazymatch X with
  | ?A ∪ ?B => pose proof (size_union_le A B); bound_union A; bound_union B
  | list_to_set (range ?lo ?hi) => pose proof (size_range_set lo hi)
  | _ => idtac
  end.

(** X3. Without a corpus the target has at most 28783 codepoints,
    whatever flags are set: the blocks alone can never reach the glyph
    limit of 65535 that the script warns about. *)
Theorem build_target_size_bound (w : World) (args : Args) (target : gset Z) :
  given (corpus args) = false →
  (build_target w args).2 = inr target →
  Z.of_nat (size target) ≤ 28783 ∧ 28783 < 65535.
Proof.
  intros Hc. rewrite build_target_result. unfold corpus_target.
  rewrite Hc. cbn [snd ret]. intros [= <-]. split; [|done].
  assert (add_blocks args (∅ ∪ ASCII_BASIC) ⊆ ASCII_BASIC ∪ ALL_BLOCKS) as Hsub.
  { intros u. rewrite elem_of_add_blocks, (left_id_L ∅ (∪)).
    unfold ALL_BLOCKS, LATIN_1_SUP, ASCII_BASIC.
    rewrite !elem_of_union, !elem_of_range_set. intuition lia. }
  apply subseteq_size in Hsub.
  assert (Z.of_nat (size (ASCII_BASIC ∪ ALL_BLOCKS)) ≤ 28783); [|lia].
  unfold ALL_BLOCKS, ASCII_BASIC, LATIN_1_SUP.
  match goal with |- Z.of_nat (size ?X) ≤ _ => bound_union X end.
  lia.
Qed.

Lemma build_target_size_bound_witness :
  ∃ target,
    (build_target ex_corpus_world (ex_corpus_args [])).2 = inr target
    ∧ Z.of_nat (size target) ≤ 28783.
Proof.
  assert (∃ target,
            (build_target ex_corpus_world (ex_corpus_args [])).2 = inr target)
    as [target Ht].
  { eexists. vm_compute. reflexivity. }
  exists target. split; [exact Ht|].
  by apply (build_target_size_bound ex_corpus_world (ex_corpus_args [])
              target eq_refl Ht).
Defined.

(** ** Coverage of a font *)

Lemma elem_of_coverage_fold (tabs : list (bool * list Z)) (acc : gset Z) u :
  u ∈ foldl (λ (unicodes : gset Z) (table : bool * list Z),
               if table.1 then unicodes ∪ list_to_set table.2 else unicodes)
        acc tabs
  ↔ u ∈ acc ∨ ∃ keys, (true, keys) ∈ tabs ∧ u ∈ keys.
Proof.
  revert acc. induction tabs as [|[b keys] tabs IH]; intros acc; simpl.
  { split; [by left|]. intros [?|(keys & []%elem_of_nil & _)]. done. }
  rewrite IH. setoid_rewrite elem_of_cons. destruct b.
  - rewrite elem_of_union, elem_of_list_to_set. naive_solver.
  - naive_solver.
Qed.

(** X4. [get_font_unicode_set] opens the font and returns the codepoints
    that are a key of one of its Unicode cmap subtables, and only those:
    the subtables that are not Unicode add nothing.  Where the path has
    no font, no set is returned: the empty path gives a font without
    tables, which has no "cmap" ([KeyError]); a file that is not a font
    is opened and refused ([TTLibError]); a path without a file is not
    opened ([OSError]). *)
Theorem get_font_unicode_set_covers (w : World) (font_path : list Z) :
  (∀ font, fonts w !! font_path = Some font →
     get_font_unicode_set w font_path
     = ([Opened font_path], inr (coverage font))
     ∧ ∀ u, u ∈ coverage font
            ↔ ∃ keys, (true, keys) ∈ cmap_tables font ∧ u ∈ keys)
  ∧ (fonts w !! font_path = None →
     get_font_unicode_set w font_path
     = if bool_decide (font_path = [])
       then ([], inl (KeyError (py_str "cmap")))
       else if bool_decide (font_path ∈ dom (texts w))
       then ([Opened font_path], inl (TTLibError font_path))
       else ([], inl (OSError font_path))).
Proof.
  split.
  - intros font Hf. split.
    + unfold get_font_unicode_set, open_font. by rewrite Hf.
    + intros u. unfold coverage. rewrite elem_of_coverage_fold.
      split; [intros [[]%elem_of_empty|?]|]; eauto.
  - intros Hf. unfold get_font_unicode_set, open_font. rewrite Hf.
    by repeat case_bool_decide.
Qed.

(** ** Font Compatibility Validator: failures of the loop *)

Lemma validate_body_no_font (w : World) (font_map : gmap (list Z) (list Z))
    (st : vstate) (tag : list Z) :
  font_of w font_map tag = None →
  validate_body w font_map st tag
  = ((font_error w font_map tag).1, inl (font_error w font_map tag).2).
Proof.
  unfold font_of, validate_body, getitem, font_error.
  destruct (font_map !! tag) as [p|]; cbn [mbind option_bind]; [|done].
  intros Hp. rewrite bind_ret_l. unfold open_font. rewrite Hp.
  by repeat case_bool_decide.
Qed.

Lemma validate_loop_fail (w : World) (font_map : gmap (list Z) (list Z))
    (ok rest : list (list Z)) (fs : list TTFont) (t : list Z) (st0 : vstate) :
  Forall2 (font_at w font_map) ok fs →
  font_of w font_map t = None →
  for_each (validate_body w font_map) st0 (ok ++ t :: rest)
  = (opened_fonts font_map ok ++ (font_error w font_map t).1,
     inl (font_error w font_map t).2).
Proof.
  intros Hok Ht. revert st0.
  induction Hok as [|tag f ok fs Hf Hok IH]; intros st0; simpl.
  { by rewrite (validate_body_no_font _ _ _ _ Ht). }
  destruct (validate_body_font_at w font_map st0 tag f Hf) as (p & Hp & Hbody).
  rewrite (bind_value _ _ _ _ Hbody), IH.
  unfold opened_fonts. simpl. by rewrite Hp.
Qed.

Lemma validate_fonts_fails_at (w : World)
    (font_map : gmap (list Z) (list Z)) (ok rest : list (list Z))
    (fs : list TTFont) (t : list Z) :
  Forall2 (font_at w font_map) ok fs →
  font_of w font_map t = None →
  validate_fonts w (ok ++ t :: rest) font_map
  = (opened_fonts font_map ok ++ (font_error w font_map t).1,
     inl (font_error w font_map t).2).
Proof.
  intros Hok Ht. unfold validate_fonts.
  by rewrite (validate_loop_fail _ _ _ _ _ _ _ Hok Ht).
Qed.

(** The exception at a tag without a font is none of the validator's. *)
Lemma font_error_not_exit (w : World) (font_map : gmap (list Z) (list Z))
    (t : list Z) (msg : list Z) :
  (font_error w font_map t).2 ≠ SystemExit msg.
Proof.
  unfold font_error. destruct (font_map !! t); [|done].
  by repeat case_bool_decide.
Qed.

(** X5. [validate_fonts] stops at the first tag of the order that has no
    font: with a [KeyError] when the font map has no entry for the tag;
    with the [KeyError] of "head" when its path is empty, as the font
    built for the empty path has no table; with [TTLibError] when the
    file is not a font, which has been opened; with [OSError] when there
    is no file.  The fonts of the tags before it have been opened, those
    after it have not, and none of the three checks is made. *)
Theorem validate_fonts_first_failure (w : World)
    (font_map : gmap (list Z) (list Z)) (ok rest : list (list Z))
    (fs : list TTFont) (t : list Z) :
  Forall2 (font_at w font_map) ok fs →
  font_of w font_map t = None →
  validate_fonts w (ok ++ t :: rest) font_map
  = match font_map !! t with
    | None => (opened_fonts font_map ok, inl (KeyError t))
    | Some path =>
        if bool_decide (path = [])
        then (opened_fonts font_map ok, inl (KeyError (py_str "head")))
        else if bool_decide (path ∈ dom (texts w))
        then (opened_fonts font_map ok ++ [Opened path],
              inl (TTLibError path))
        else (opened_fonts font_map ok, inl (OSError path))
    end.
Proof.
  intros Hok Ht. rewrite (validate_fonts_fails_at _ _ _ _ _ _ Hok Ht).
  unfold font_error. destruct (font_map !! t); [|by rewrite app_nil_r].
  repeat case_bool_decide; by rewrite ?app_nil_r.
Qed.

Lemma validate_fonts_first_failure_witness :
  validate_fonts (ex_world (font_with ["glyf"] 1000 [])
                           (font_with ["CFF "] 2048 []))
    [py_str "latin0"; py_str "ja"; py_str "zh-tw"] ex_font_map
  = ([Opened (py_str "latin.ttf")], inl (KeyError (py_str "ja"))).
Proof.
  apply (validate_fonts_first_failure _ ex_font_map [py_str "latin0"]
           [py_str "zh-tw"] [font_with ["glyf"] 1000 []] (py_str "ja")).
  - constructor; [by exists (py_str "latin.ttf")|constructor].
  - done.
Defined.

(** A text file given as a font, a path without a file, and an empty
    path. *)
Example validate_fonts_bad_files :
  let w := {| fonts := {[ py_str "latin.ttf" := font_with ["glyf"] 1000 [] ]};
              texts := {[ py_str "notes.txt" := py_str "abc" ]} |} in
  validate_fonts w ex_order
    (<[py_str "zh-tw" := py_str "notes.txt"]> ex_font_map)
  = ([Opened (py_str "latin.ttf"); Opened (py_str "notes.txt")],
     inl (TTLibError (py_str "notes.txt")))
  ∧ validate_fonts w ex_order ex_font_map
    = ([Opened (py_str "latin.ttf")], inl (OSError (py_str "tw.otf")))
  ∧ validate_fonts w ex_order (<[py_str "zh-tw" := []]> ex_font_map)
    = ([Opened (py_str "latin.ttf")], inl (KeyError (py_str "head"))).
Proof. split_and!; by vm_compute. Qed.

(** The tags of an order either all have a font, or there is a first one
    that has none. *)
Lemma fonts_or_first_missing (w : World) (font_map : gmap (list Z) (list Z))
    (order : list (list Z)) :
  (∃ fs, Forall2 (font_at w font_map) order fs)
  ∨ ∃ ok fs t rest, order = ok ++ t :: rest
      ∧ Forall2 (font_at w font_map) ok fs ∧ font_of w font_map t = None.
Proof.
  induction order as [|t order IH].
  { left. exists []. constructor. }
  destruct (font_of w font_map t) as [f|] eqn:Hf.
  - assert (font_at w font_map t f) as Hat.
    { unfold font_of in Hf. destruct (font_map !! t) as [p|] eqn:Hp; [|done].
      by exists p. }
    destruct IH as [[fs Hfs]|(ok & fs & t' & rest & -> & Hok & Ht')].
    + left. exists (f :: fs). by constructor.
    + right. exists (t :: ok), (f :: fs), t', rest.
      split_and!; [done|by constructor|done].
  - right. exists [], [], t, order. split_and!; [done|constructor|done].
Qed.

Lemma font_at_font_of (w : World) (font_map : gmap (list Z) (list Z)) t f :
  font_at w font_map t f ↔ font_of w font_map t = Some f.
Proof.
  unfold font_at, font_of. destruct (font_map !! t) as [p|]; simpl.
  - naive_solver.
  - naive_solver.
Qed.

Lemma Forall2_font_at_perm (w : World) (font_map : gmap (list Z) (list Z))
    (order order' : list (list Z)) (fs : list TTFont) :
  order ≡ₚ order' → Forall2 (font_at w font_map) order fs →
  ∃ fs', fs ≡ₚ fs' ∧ Forall2 (font_at w font_map) order' fs'.
Proof.
  intros Hperm Hfs.
  assert (fs = omap (font_of w font_map) order) as ->.
  { clear Hperm.
    induction Hfs as [|t f order fs Hf%font_at_font_of _ IH]; [done|].
    simpl. rewrite Hf. simpl. by f_equal. }
  exists (omap (font_of w font_map) order'). split; [by rewrite Hperm|].
  assert (Forall (λ t, is_Some (font_of w font_map t)) order') as Hall.
  { rewrite <- Hperm. apply Forall_forall. intros t Ht.
    apply list_elem_of_lookup in Ht as [i Hi].
    destruct (Forall2_lookup_l _ _ _ _ _ Hfs Hi) as (f & _ & Hf).
    apply font_at_font_of in Hf. by rewrite Hf. }
  clear Hperm Hfs. induction Hall as [|t order' [f Hf] _ IH]; simpl.
  { constructor. }
  rewrite Hf. simpl. constructor; [by apply font_at_font_of|done].
Qed.

(** X7. Whether the fonts are accepted does not depend on the priority
    order: for two orders with the same tags, [validate_fonts] accepts
    both or neither, stops on the outline mismatch for both or neither,
    and stops on the units-per-em mismatch for both or neither. *)
Theorem validate_fonts_order_independent (w : World)
    (font_map : gmap (list Z) (list Z)) (order order' : list (list Z)) :
  order ≡ₚ order' →
  let result := (validate_fonts w order font_map).2 in
  let result' := (validate_fonts w order' font_map).2 in
  (result = inr tt ↔ result' = inr tt)
  ∧ (result = inl outline_mismatch ↔ result' = inl outline_mismatch)
  ∧ ((∃ parts, result = inl (SystemExit (upem_message parts)))
     ↔ (∃ parts, result' = inl (SystemExit (upem_message parts)))).
Proof.
  intros Hperm result result'.
  assert (∀ o o', o ≡ₚ o' →
    (∃ fs, Forall2 (font_at w font_map) o fs) →
    ∃ fs fs', Forall2 (font_at w font_map) o fs
              ∧ Forall2 (font_at w font_map) o' fs' ∧ fs ≡ₚ fs') as Hboth.
  { intros o o' Ho [fs Hfs].
    destruct (Forall2_font_at_perm _ _ _ _ _ Ho Hfs) as (fs' & ? & ?).
    by exists fs, fs'. }
  destruct (fonts_or_first_missing w font_map order)
    as [Hfs|(ok & fs & t & rest & Ho & Hok & Ht)].
  - destruct (Hboth _ _ Hperm Hfs) as (fs & fs' & Hfs1 & Hfs2 & Hp).
    unfold result, result'.
    rewrite (validate_fonts_cases _ _ _ _ Hfs1),
      (validate_fonts_cases _ _ _ _ Hfs2).
    assert (distinct_upems fs' = distinct_upems fs) as ->.
    { unfold distinct_upems. by rewrite Hp. }
    assert (kinds_of fs' = kinds_of fs) as ->.
    { unfold kinds_of. by rewrite Hp. }
    assert (Exists (λ f, has_table f "fvar" = true) fs'
            ↔ Exists (λ f, has_table f "fvar" = true) fs) as Hex.
    { rewrite !Exists_exists. by setoid_rewrite Hp. }
    repeat case_bool_decide; cbn [snd andb]; try tauto;
      split_and!; split; try done; intros [parts ?]; by eexists.
  - destruct (fonts_or_first_missing w font_map order')
      as [Hfs'|(ok' & fs' & t' & rest' & Ho' & Hok' & Ht')].
    { destruct (Hboth _ _ (symmetry Hperm) Hfs') as (_ & fs0 & _ & Hfs0 & _).
      rewrite Ho in Hfs0.
      apply Forall2_app_inv_l in Hfs0 as (? & ? & _ & Hcons & _).
      apply Forall2_cons_inv_l in Hcons as (f & ? & Hf%font_at_font_of & _).
      congruence. }
    unfold result, result'. rewrite Ho, Ho'.
    rewrite (validate_fonts_fails_at _ _ _ _ _ _ Hok Ht),
      (validate_fonts_fails_at _ _ _ _ _ _ Hok' Ht').
    cbn [snd].
    pose proof (font_error_not_exit w font_map t) as Hne.
    pose proof (font_error_not_exit w font_map t') as Hne'.
    split_and!; split; try done.
    all: intros H; exfalso;
      repeat match goal with H : ∃ _, _ |- _ => destruct H as [? H] end;
      match goal with
      | H : inl _ = inl _ |- _ =>
          injection H as H; first [by eapply Hne|by eapply Hne']
      end.
Qed.

Lemma validate_fonts_order_independent_witness :
  let w := ex_world (font_with ["glyf"] 1000 [])
                    (font_with ["glyf"; "fvar"] 1000 []) in
  [py_str "latin0"; py_str "zh-tw"] ≡ₚ [py_str "zh-tw"; py_str "latin0"]
  ∧ (validate_fonts w [py_str "zh-tw"; py_str "latin0"] ex_font_map).2
    = inr tt.
Proof.
  assert ([py_str "latin0"; py_str "zh-tw"]
          ≡ₚ [py_str "zh-tw"; py_str "latin0"]) as Hperm by apply perm_swap.
  split; [exact Hperm|].
  pose proof (validate_fonts_order_independent
                (ex_world (font_with ["glyf"] 1000 [])
                          (font_with ["glyf"; "fvar"] 1000 []))
                ex_font_map _ _ Hperm) as (Hacc & _).
  apply Hacc. by vm_compute.
Defined.

Lemma dict_set_fresh {V} (d : list (list Z * V)) (k : list Z) (v : V) :
  k ∉ d.*1 → dict_set d k v = d ++ [(k, v)].
Proof.
  induction d as [|[k' v'] d IH]; simpl; [done|].
  rewrite not_elem_of_cons. intros [Hne Hk].
  rewrite bool_decide_eq_false_2 by done. by rewrite IH.
Qed.

Lemma upems_fold_fresh (order : list (list Z)) (fs : list TTFont)
    (st : vstate) :
  NoDup order → length order = length fs →
  (∀ t, t ∈ order → t ∉ (upems st).*1) →
  upems (foldl vstep st (zip order fs))
  = upems st ++ zip order (unitsPerEm <$> fs).
Proof.
  revert fs st. induction order as [|t order IH]; intros [|f fs] st Hnd Hlen Hd;
    simplify_eq/=; [by rewrite app_nil_r|].
  apply NoDup_cons in Hnd as [Ht Hnd].
  rewrite IH; [|done|done|]; simpl.
  - rewrite dict_set_fresh by (apply Hd; by left).
    by rewrite <- app_assoc.
  - intros t' Ht'. rewrite dict_set_fresh by (apply Hd; by left).
    rewrite fmap_app. simpl. rewrite elem_of_app, list_elem_of_singleton.
    intros [?| ->]; [|done]. eapply Hd; [by right|done].
Qed.

(** X6. When the units-per-em values differ in a duplicate-free order,
    the message of the [SystemExit] is the fixed text followed by the
    entries [tag=value], one per tag, in the priority order, separated by
    a comma and a space; every font had been opened. *)
Theorem upem_mismatch_message (w : World) (order : list (list Z))
    (font_map : gmap (list Z) (list Z)) (fs : list TTFont) :
  NoDup order →
  Forall2 (font_at w font_map) order fs →
  (1 < distinct_upems fs)%nat →
  validate_fonts w order font_map
  = (opened_fonts font_map order,
     inl (SystemExit
            (py_str "unitsPerEm mismatch across inputs (must match for merge). Found: "
             ++ join (py_str ", ")
                  (zip_with (λ t f, t ++ py_str "=" ++ str_of_int (unitsPerEm f))
                     order fs)))).
Proof.
  intros Hnd Hfs Hd. rewrite (validate_fonts_cases _ _ _ _ Hfs).
  rewrite bool_decide_eq_true_2 by done.
  assert (upem_item <$> zip order (unitsPerEm <$> fs)
          = zip_with (λ t f, t ++ py_str "=" ++ str_of_int (unitsPerEm f))
              order fs) as Hitems.
  { clear. revert fs. induction order as [|t order IH]; intros [|f fs];
      simpl; try done. by rewrite IH. }
  unfold upem_mismatch, upem_message, upems_dict.
  rewrite upems_fold_fresh;
    [|done|by eapply Forall2_length|by intros ? _ ?%elem_of_nil].
  cbn [upems app]. rewrite Hitems, app_assoc. reflexivity.
Qed.

Lemma upem_mismatch_message_witness :
  (validate_fonts (ex_world (font_with ["glyf"] 1000 [])
                            (font_with ["glyf"] 2048 []))
     ex_order ex_font_map).2
  = inl (SystemExit
           (py_str "unitsPerEm mismatch across inputs (must match for merge). Found: latin0=1000, zh-tw=2048")).
Proof.
  rewrite (upem_mismatch_message _ _ _
             [font_with ["glyf"] 1000 []; font_with ["glyf"] 2048 []]).
  - by vm_compute.
  - by apply (bool_decide_unpack _); vm_compute.
  - apply ex_font_at.
  - vm_compute. lia.
Defined.

(** ** Ownership Partitioner: closed forms and composition *)

Lemma NoDup_split_unique (pre post pre' post' : list (list Z)) (a : list Z) :
  NoDup (pre ++ a :: post) → pre ++ a :: post = pre' ++ a :: post' →
  pre = pre'.
Proof.
  intros Hnd Heq.
  assert (length pre = length pre') as Hlen.
  { apply (NoDup_lookup (pre ++ a :: post) _ _ a Hnd).
    - by apply list_lookup_middle.
    - rewrite Heq. by apply list_lookup_middle. }
  apply (f_equal (take (length pre))) in Heq.
  rewrite take_app_length in Heq. rewrite Hlen in Heq.
  by rewrite take_app_length in Heq.
Qed.

Lemma owner_first (order : list (list Z)) (support : gmap (list Z) (gset Z))
    (u : Z) (a : list Z) :
  [] ∉ order →
  owner order support u = Some a
  ↔ ∃ pre post, order = pre ++ a :: post ∧ u ∈ support !!! a
                ∧ Forall (λ t, u ∉ support !!! t) pre.
Proof.
  intros Hne. rewrite <- find_owner_Some. unfold owner.
  destruct (find_owner support u order) as [t|] eqn:Hf; [|done].
  apply find_owner_Some in Hf as (pre & post & -> & _).
  destruct t; [exfalso; apply Hne; set_solver|done].
Qed.

Lemma partition_closed_form (target : gset Z) (pre post : list (list Z))
    (a : list Z) (support : gmap (list Z) (gset Z)) :
  NoDup (pre ++ a :: post) → [] ∉ pre ++ a :: post →
  assigned (partition target (pre ++ a :: post) support) !!! a
  = (target ∩ support !!! a) ∖ ⋃ ((λ t, support !!! t) <$> pre).
Proof.
  intros Hnd Hne.
  destruct (partition_spec (pre ++ a :: post) support target) as (Ha & _).
  apply set_eq. intros u.
  rewrite Ha, owner_first by done.
  rewrite elem_of_difference, elem_of_intersection, elem_of_union_list.
  split.
  - intros (Hu & pre' & post' & Heq & Hcov & Hpre).
    apply (NoDup_split_unique _ _ _ _ _ Hnd) in Heq as <-.
    split; [done|]. intros (X & (t & -> & Ht)%list_elem_of_fmap & HX).
    rewrite Forall_forall in Hpre. by apply (Hpre t).
  - intros ([Hu Hcov] & Hpre). split; [done|].
    exists pre, post. split_and!; [done..|].
    apply Forall_forall. intros t Ht Hin. apply Hpre.
    exists (support !!! t). split; [|done].
    apply list_elem_of_fmap. by exists t.
Qed.

(** X8. In a resolved order the set of a font is what the target and its
    coverage have in common, less the coverage of the fonts ahead of it:
    the loop computes the set-difference form of first-match-wins. *)
Theorem assigned_closed_form (target : gset Z) (pre post : list (list Z))
    (a : list Z) (support : gmap (list Z) (gset Z)) :
  NoDup (pre ++ a :: post) → [] ∉ pre ++ a :: post →
  assigned (partition target (pre ++ a :: post) support) !!! a
  = (target ∩ support !!! a) ∖ ⋃ ((λ t, support !!! t) <$> pre).
Proof. apply partition_closed_form. Qed.

Lemma assigned_closed_form_witness :
  assigned (partition ex_target [py_str "A"; py_str "B"; py_str "C"] ex_support)
    !!! py_str "B"
  = (ex_target ∩ ex_support !!! py_str "B")
    ∖ ⋃ ((λ t, ex_support !!! t) <$> [py_str "A"]).
Proof.
  apply (assigned_closed_form ex_target [py_str "A"] [py_str "C"]
           (py_str "B") ex_support);
    by apply (bool_decide_unpack _); vm_compute.
Defined.

Lemma find_owner_app (support : gmap (list Z) (gset Z)) (u : Z)
    (l1 l2 : list (list Z)) :
  find_owner support u (l1 ++ l2)
  = match find_owner support u l1 with
    | Some t => Some t
    | None => find_owner support u l2
    end.
Proof.
  induction l1 as [|a l1 IH]; simpl; [done|]. by case_bool_decide.
Qed.

Lemma owner_app_last (order : list (list Z))
    (support : gmap (list Z) (gset Z)) (t : list Z) (u : Z) :
  [] ∉ order → t ≠ [] →
  owner (order ++ [t]) support u
  = match owner order support u with
    | Some a => Some a
    | None => if bool_decide (u ∈ support !!! t) then Some t else None
    end.
Proof.
  intros Hne Ht. unfold owner. rewrite find_owner_app.
  destruct (find_owner support u order) as [a|] eqn:Hf.
  - apply find_owner_Some in Hf as (pre & post & -> & _).
    destruct a; [exfalso; apply Hne; set_solver|done].
  - simpl. case_bool_decide; [|done]. by destruct t.
Qed.

(** X9. Appending a font at the end of the order changes nothing for the
    fonts already there: each keeps its set, and the new font gets
    exactly the codepoints of its coverage that were uncovered; the
    counter of unassigned codepoints drops by their number. *)
Theorem partition_append (target : gset Z) (order : list (list Z))
    (t : list Z) (support : gmap (list Z) (gset Z)) :
  [] ∉ order → t ∉ order → t ≠ [] →
  let st := partition target order support in
  let st' := partition target (order ++ [t]) support in
  let gained := uncovered target order support ∩ support !!! t in
  (∀ a, a ≠ t → assigned st' !!! a = assigned st !!! a)
  ∧ assigned st' !!! t = gained
  ∧ unassigned st' = unassigned st - Z.of_nat (size gained).
Proof.
  intros Hne Ht Htne st st' gained.
  destruct (partition_spec order support target) as (Ha & Hn & _).
  destruct (partition_spec (order ++ [t]) support target) as (Ha' & Hn' & _).
  fold st in Ha, Hn. fold st' in Ha', Hn'.
  assert (∀ u, u ∈ gained ↔ u ∈ target ∧ owner order support u = None
                              ∧ u ∈ support !!! t) as Hg.
  { intros u. unfold gained. rewrite uncovered_owner by done.
    rewrite elem_of_intersection, elem_of_filter. tauto. }
  split_and!.
  - intros a Hat. apply set_eq. intros u.
    rewrite Ha, Ha', owner_app_last by done.
    destruct (owner order support u); [done|].
    case_bool_decide; naive_solver.
  - apply set_eq. intros u. rewrite Ha', Hg, owner_app_last by done.
    destruct (owner order support u) as [a|] eqn:Ho.
    + split; [|naive_solver]. intros [_ [= ->]].
      by apply owner_Some in Ho as [? _].
    + case_bool_decide; naive_solver.
  - rewrite Hn, Hn'.
    assert (filter (λ u, owner order support u = None) target
            = filter (λ u, owner (order ++ [t]) support u = None) target
              ∪ gained) as ->.
    { apply set_eq. intros u.
      rewrite elem_of_union, !elem_of_filter, Hg, owner_app_last by done.
      destruct (owner order support u); [naive_solver|].
      case_bool_decide; naive_solver. }
    rewrite size_union; [lia|].
    intros u. rewrite elem_of_filter, Hg, owner_app_last by done.
    destruct (owner order support u); [naive_solver|].
    case_bool_decide; naive_solver.
Qed.

Lemma partition_append_witness :
  assigned (partition ex_target ([py_str "A"] ++ [py_str "B"]) ex_support)
    !!! py_str "B"
  = uncovered ex_target [py_str "A"] ex_support ∩ ex_support !!! py_str "B".
Proof.
  apply (partition_append ex_target [py_str "A"] (py_str "B") ex_support);
    (by apply (bool_decide_unpack _); vm_compute) || done.
Defined.

Lemma size_union_list_disjoint (l : list (list Z)) (f : list Z → gset Z) :
  NoDup l → (∀ a b, a ≠ b → f a ## f b) →
  size (⋃ (f <$> l)) = sum_list ((λ t, size (f t)) <$> l).
Proof.
  intros Hnd Hdisj. induction Hnd as [|a l Ha Hnd IH].
  { by rewrite !fmap_nil, union_list_nil, size_empty. }
  rewrite !fmap_cons, union_list_cons. cbn [sum_list sum_list_with].
  rewrite size_union, IH; [done|].
  intros u Hu (X & (b & -> & Hb)%list_elem_of_fmap & HX)%elem_of_union_list.
  apply (Hdisj a b) with u; [|done..]. by intros ->.
Qed.

(** X10. In a resolved order the numbers the run reports add up: the
    sizes of the sets of the fonts and the counter of unassigned
    codepoints sum to the size of the target. *)
Theorem assigned_counts_add_up (target : gset Z) (order : list (list Z))
    (support : gmap (list Z) (gset Z)) :
  NoDup order → [] ∉ order →
  let st := partition target order support in
  Z.of_nat (sum_list ((λ t, size (assigned st !!! t)) <$> order))
  + unassigned st
  = Z.of_nat (size target).
Proof.
  intros Hnd Hne st.
  destruct (partition_spec order support target) as (Ha & Hn & _).
  fold st in Ha, Hn.
  rewrite <- (size_union_list_disjoint order (λ t, assigned st !!! t)), Hn;
    [|done|].
  2:{ intros a b Hab u. rewrite !Ha. intros [_ ?] [_ ?]. congruence. }
  rewrite <- Nat2Z.inj_add, <- size_union.
  - do 2 f_equal. apply set_eq. intros u.
    rewrite elem_of_union, elem_of_union_list, elem_of_filter. split.
    + intros [(X & (t & -> & _)%list_elem_of_fmap & Hu)|[_ ?]]; [|done].
      by apply Ha in Hu as [? _].
    + intros Hu. destruct (owner order support u) as [t|] eqn:Ho; [left|by right].
      exists (assigned st !!! t). split; [|by apply Ha].
      apply list_elem_of_fmap. exists t. split; [done|].
      by apply owner_Some in Ho as [? _].
  - intros u (X & (t & -> & _)%list_elem_of_fmap & Hu)%elem_of_union_list.
    rewrite elem_of_filter. apply Ha in Hu as [_ Hu]. intros [? _]. congruence.
Qed.

Lemma assigned_counts_add_up_witness :
  let st := partition ex_target [py_str "A"; py_str "B"] ex_support in
  Z.of_nat (size (assigned st !!! py_str "A")
            + (size (assigned st !!! py_str "B") + 0))
  + unassigned st = 4.
Proof.
  pose proof (assigned_counts_add_up ex_target [py_str "A"; py_str "B"]
                ex_support) as Hsum.
  simpl. simpl in Hsum. rewrite Hsum.
  - by vm_compute.
  - by apply (bool_decide_unpack _); vm_compute.
  - by apply (bool_decide_unpack _); vm_compute.
Defined.

(** ** Renamer: renaming again *)

Lemma rename_record_twice (recs1 recs2 : gmap Z (list Z)) (r : NameRecord) :
  dom recs1 = dom recs2 →
  rename_record recs2 (rename_record recs1 r) = rename_record recs2 r.
Proof.
  intros Hdom. unfold rename_record at 2.
  destruct (recs1 !! nameID r) as [s1|] eqn:H1; [|done].
  unfold rename_record. simpl.
  destruct (recs2 !! nameID r) as [s2|] eqn:H2; [done|].
  apply not_elem_of_dom in H2. rewrite <- Hdom in H2.
  apply not_elem_of_dom in H2. congruence.
Qed.

Lemma dom_name_records (family_name subfamily : list Z) :
  dom (name_records family_name subfamily) = {[1; 2; 4; 6]}.
Proof. unfold name_records. rewrite !dom_insert_L, dom_empty_L. set_solver. Qed.

Lemma name_le_trans (toBytes : NameRecord → option (list Z)) :
  Transitive (λ r1 r2, ¬ name_lt toBytes r2 r1).
Proof.
  unfold name_lt. intros r1 r2 r3 H12 H23 H31.
  destruct (trichotomy lexico (name_key toBytes r1) (name_key toBytes r2))
    as [Hlt|[Heq|Hgt]]; [| |done].
  - apply H23. by etrans.
  - apply H23. by rewrite <- Heq.
Qed.

(** Two lists with the same records are sorted to the same list, when
    the ids and the bytes of a record tell which record it is. *)
Lemma sort_names_unique (toBytes : NameRecord → option (list Z))
    (l1 l2 : list NameRecord) :
  (∀ r1 r2, is_Some (toBytes r1) → is_Some (toBytes r2) →
            name_key toBytes r1 = name_key toBytes r2 → r1 = r2) →
  Forall (λ r, is_Some (toBytes r)) l1 →
  l1 ≡ₚ l2 → sort_names toBytes l1 = sort_names toBytes l2.
Proof.
  intros Hinj Hall Hperm.
  apply (StronglySorted_unique_strong (λ r1 r2, ¬ name_lt toBytes r2 r1)).
  - intros r1 r2 Hr1 Hr2 H12 H21.
    rewrite sort_names_Permutation in Hr1.
    rewrite sort_names_Permutation, <- Hperm in Hr2.
    rewrite Forall_forall in Hall. apply Hinj; [by apply Hall..|].
    destruct (trichotomy lexico (name_key toBytes r1) (name_key toBytes r2))
      as [Hlt|[Heq|Hgt]]; [by destruct H21|done|by destruct H12].
  - apply (@Sorted_StronglySorted _ _ (name_le_trans toBytes)),
      Sorted_sort_names.
  - apply (@Sorted_StronglySorted _ _ (name_le_trans toBytes)),
      Sorted_sort_names.
  - by rewrite !sort_names_Permutation.
Qed.

Lemma set_font_name_no_font (toBytes : NameRecord → option (list Z))
    (w : World) (font_path family_name subfamily : list Z) :
  fonts w !! font_path = None →
  ∃ e, (set_font_name toBytes w font_path family_name subfamily).2 = inl e.
Proof.
  intros Hfont. unfold set_font_name, open_font. rewrite Hfont.
  repeat case_bool_decide; by eexists.
Qed.

(** X11. Once a font has been renamed, renaming it again does what
    renaming the font as it was would have done: the last names win, the
    same lines are printed, and the second renaming raises exactly when
    it would have raised on the font as it was.  The ids and the bytes of
    a record that can be encoded are taken to tell which record it is. *)
Theorem set_font_name_last_wins (toBytes : NameRecord → option (list Z))
    (w w1 : World) (font_path family1 sub1 family2 sub2 : list Z)
    (evs1 : list event) :
  (∀ r1 r2, is_Some (toBytes r1) → is_Some (toBytes r2) →
            name_key toBytes r1 = name_key toBytes r2 → r1 = r2) →
  set_font_name toBytes w font_path family1 sub1 = (evs1, inr w1) →
  set_font_name toBytes w1 font_path family2 sub2
  = set_font_name toBytes w font_path family2 sub2.
Proof.
  intros Hinj Hrun.
  destruct (fonts w !! font_path) as [font|] eqn:Hfont; last first.
  { destruct (set_font_name_no_font toBytes w font_path family1 sub1 Hfont)
      as [e He]. by rewrite Hrun in He. }
  rewrite (set_font_name_font _ _ _ _ _ _ Hfont) in Hrun.
  destruct (compile_names_cases toBytes
              (rename_record (name_records family1 sub1) <$> names font))
    as [[_ Hc]|[_ Hc]]; rewrite Hc in Hrun; [|done].
  cbn [snd] in Hrun. injection Hrun as _ <-.
  rewrite (set_font_name_font _ _ _ _ _ _ Hfont).
  erewrite set_font_name_font by (cbn [fonts]; apply lookup_insert_eq).
  cbn [names tables unitsPerEm cmap_tables fonts texts].
  assert (rename_record (name_records family2 sub2)
            <$> sort_names toBytes
                  (rename_record (name_records family1 sub1) <$> names font)
          ≡ₚ rename_record (name_records family2 sub2) <$> names font)
    as Hperm.
  { rewrite sort_names_Permutation, <- list_fmap_compose.
    erewrite list_fmap_ext; [done|]. intros i r _. simpl.
    apply rename_record_twice. by rewrite !dom_name_records. }
  destruct (compile_names_cases toBytes
              (rename_record (name_records family2 sub2) <$> names font))
    as [[Hall Hc2]|[Hn Hc2]];
    destruct (compile_names_cases toBytes
                (rename_record (name_records family2 sub2)
                   <$> sort_names toBytes
                         (rename_record (name_records family1 sub1)
                            <$> names font)))
      as [[Hall' Hc2']|[Hn' Hc2']]; rewrite Hc2, Hc2'.
  - cbn [snd]. rewrite insert_insert_eq.
    by rewrite (sort_names_unique _ _ _ Hinj Hall' Hperm).
  - destruct Hn'. by rewrite Hperm.
  - destruct Hn. by rewrite <- Hperm.
  - done.
Qed.

Lemma set_font_name_last_wins_witness :
  ∃ evs1 w1,
    set_font_name (λ r, ascii_bytes (name_string r)) ex_named_world
      (py_str "merged_common.ttf") (py_str "Draft") (py_str "Regular")
    = (evs1, inr w1)
    ∧ set_font_name (λ r, ascii_bytes (name_string r)) w1
        (py_str "merged_common.ttf") (py_str "Noto Serif CJK") (py_str "Light")
      = set_font_name (λ r, ascii_bytes (name_string r)) ex_named_world
          (py_str "merged_common.ttf") (py_str "Noto Serif CJK")
          (py_str "Light").
Proof.
  eexists _, _. split; [by vm_compute|].
  eapply (set_font_name_last_wins (λ r, ascii_bytes (name_string r))
            ex_named_world _ (py_str "merged_common.ttf") (py_str "Draft")
            (py_str "Regular")).
  - intros [n1 p1 e1 l1 s1] [n2 p2 e2 l2 s2]. unfold name_key, ascii_bytes.
    cbn [nameID platformID platEncID langID name_string].
    destruct (forallb _ s1), (forallb _ s2);
      intros [? ?] [? ?] ?; simplify_eq/=; done.
  - by vm_compute.
Defined.

(** ** The font map of [main] *)

Lemma foldl_insert_lookup (l : list (list Z * list Z))
    (m : gmap (list Z) (list Z)) t :
  NoDup l.*1 →
  foldl (λ m tp, <[tp.1 := tp.2]> m) m l !! t
  = match list_find (λ tp, tp.1 = t) l with
    | Some (_, tp) => Some tp.2
    | None => m !! t
    end.
Proof.
  revert m. induction l as [|[k v] l IH]; intros m Hnd; simpl; [done|].
  apply NoDup_cons in Hnd as [Hk Hnd]. rewrite IH by done.
  destruct (decide (k = t)) as [->|Hne]; simpl.
  - destruct (list_find _ l) as [[i [k' v']]|] eqn:Hfind; simpl.
    + apply list_find_Some in Hfind as (Hl & Heq & _). simpl in Heq. subst k'.
      exfalso. apply Hk. apply list_elem_of_fmap. exists (t, v').
      split; [done|]. by eapply list_elem_of_lookup_2.
    + by rewrite lookup_insert_eq.
  - destruct (list_find _ l) as [[i [k' v']]|]; simpl; [done|].
    by rewrite lookup_insert_ne.
Qed.

Lemma latin_tags_lookup (args : Args) (i : nat) :
  (i < length (latin args))%nat →
  latin_tags_of args !! i = Some (py_str "latin" ++ str_of_int (Z.of_nat i)).
Proof.
  intros Hi. unfold latin_tags_of, range.
  rewrite list_lookup_fmap, lookup_seqZ_lt by lia. by rewrite Z.add_0_l.
Qed.

Lemma length_latin_tags (args : Args) :
  length (latin_tags_of args) = length (latin args).
Proof.
  unfold latin_tags_of, range. rewrite length_fmap, length_seqZ. lia.
Qed.

Lemma font_map_of_lookups (args : Args) :
  (∀ i path, latin args !! i = Some path →
     font_map_of args !! (py_str "latin" ++ str_of_int (Z.of_nat i))
     = Some path)
  ∧ font_map_of args !! py_str "zh-tw" = Some (zh_tw args)
  ∧ font_map_of args !! py_str "zh-cn" = Some (zh_cn args)
  ∧ font_map_of args !! py_str "ja"
    = (if given (ja args) then ja args else None)
  ∧ (∀ t, is_Some (font_map_of args !! t) →
       t ∈ latin_tags_of args ∨ t = py_str "zh-tw" ∨ t = py_str "zh-cn"
       ∨ (t = py_str "ja" ∧ given (ja args) = true)).
Proof.
  set (base := foldl (λ (m : gmap (list Z) (list Z)) tp, <[tp.1 := tp.2]> m) ∅
                 (zip (latin_tags_of args) (latin args))).
  assert (NoDup (zip (latin_tags_of args) (latin args)).*1) as Hnd.
  { rewrite fst_zip by (rewrite length_latin_tags; lia).
    apply NoDup_latin_tags. }
  assert (∀ t, is_Some (base !! t) → t ∈ latin_tags_of args) as Hbase.
  { intros t. unfold base. rewrite foldl_insert_lookup by done.
    destruct (list_find _ _) as [[i [k v]]|] eqn:Hfind; simpl.
    - intros _. apply list_find_Some in Hfind as (Hl & Heq & _).
      simpl in Heq. subst k. apply list_elem_of_lookup_2 in Hl.
      by apply elem_of_zip_l in Hl.
    - rewrite lookup_empty. by intros [? ?]. }
  assert (∀ t, head t = Some 108 →
            font_map_of args !! t = base !! t) as Hlatin.
  { intros t Ht. unfold font_map_of. fold base.
    assert (t ≠ py_str "ja" ∧ t ≠ py_str "zh-cn" ∧ t ≠ py_str "zh-tw")
      as (? & ? & ?) by (split_and!; by intros ->).
    destruct (ja args) as [[|c p]|]; by rewrite !lookup_insert_ne. }
  assert (∀ t, ¬ is_Some (base !! t) → base !! t = None) as Hnone.
  { intros t Ht. destruct (base !! t); [|done]. exfalso. eauto. }
  split_and!.
  - intros i path Hi. rewrite Hlatin by done.
    unfold base. rewrite foldl_insert_lookup by done.
    pose proof (lookup_lt_Some _ _ _ Hi) as Hlt.
    pose proof (latin_tags_lookup args i Hlt) as Htag.
    destruct (list_find _ _) as [[j [k v]]|] eqn:Hfind; simpl.
    + apply list_find_Some in Hfind as (Hl & Heq & _). simpl in Heq. subst k.
      apply lookup_zip_with_Some in Hl as (k' & v' & [= <- <-] & Hk & Hv).
      assert (j = i) as ->.
      { by apply (NoDup_lookup _ _ _ _ (NoDup_latin_tags args) Hk Htag). }
      congruence.
    + exfalso. eapply list_find_None in Hfind.
      rewrite Forall_forall in Hfind.
      apply (Hfind (py_str "latin" ++ str_of_int (Z.of_nat i), path)); [|done].
      apply list_elem_of_lookup. exists i.
      by rewrite lookup_zip_with, Htag; simpl; rewrite Hi.
  - unfold font_map_of. fold base.
    destruct (ja args) as [[|c p]|];
      rewrite ?(lookup_insert_ne _ (py_str "ja")) by done;
      by rewrite lookup_insert_ne, lookup_insert_eq.
  - unfold font_map_of. fold base.
    destruct (ja args) as [[|c p]|];
      rewrite ?(lookup_insert_ne _ (py_str "ja")) by done;
      by rewrite lookup_insert_eq.
  - assert (base !! py_str "ja" = None) as Hja.
    { apply Hnone. by intros ?%Hbase%latin_tag_head. }
    unfold font_map_of. fold base.
    destruct (ja args) as [[|c p]|]; simpl;
      by rewrite ?lookup_insert_eq, ?lookup_insert_ne.
  - intros t. unfold font_map_of. fold base.
    destruct (decide (t = py_str "zh-tw")) as [->|?]; [tauto|].
    destruct (decide (t = py_str "zh-cn")) as [->|?]; [tauto|].
    destruct (ja args) as [[|c p]|]; simpl.
    + rewrite !lookup_insert_ne by done. intros ?%Hbase. tauto.
    + destruct (decide (t = py_str "ja")) as [->|?]; [tauto|].
      rewrite !lookup_insert_ne by done. intros ?%Hbase. tauto.
    + rewrite !lookup_insert_ne by done. intros ?%Hbase. tauto.
Qed.

(** X12. The font map of a run sends the tag [latin{i}] to the i-th
    [--latin] path, [zh-tw] and [zh-cn] to their paths and [ja] to its
    path when one is given and not empty; it has no other key. *)
Theorem font_map_of_lookup (args : Args) :
  (∀ i path, latin args !! i = Some path →
     font_map_of args !! (py_str "latin" ++ str_of_int (Z.of_nat i))
     = Some path)
  ∧ font_map_of args !! py_str "zh-tw" = Some (zh_tw args)
  ∧ font_map_of args !! py_str "zh-cn" = Some (zh_cn args)
  ∧ font_map_of args !! py_str "ja"
    = (if given (ja args) then ja args else None)
  ∧ (∀ t, is_Some (font_map_of args !! t) →
       t ∈ latin_tags_of args ∨ t = py_str "zh-tw" ∨ t = py_str "zh-cn"
       ∨ (t = py_str "ja" ∧ given (ja args) = true)).
Proof. apply font_map_of_lookups. Qed.

(** ** [drop_tables] *)


(** A font with four tables: "vhea" is dropped once, "DSIG" is not
    there, and "GlyphOrder" gets a line each time. *)
Example drop_tables_example :
  drop_font_tables ex_tabled_font
    [py_str "vhea"; py_str "GlyphOrder"; py_str "DSIG"; py_str "vhea";
     py_str "GlyphOrder"]
  = (Printed <$> [py_str "Dropping table: vhea";
                  py_str "Dropping table: GlyphOrder";
                  py_str "Dropping table: GlyphOrder"],
     inr (font_with ["glyf"; "vmtx"; "head"] 1000 [])).
Proof. by vm_compute. Qed.

(** ** [main]: when it returns a plan, and what the plan holds *)

Lemma support_of_loop (w : World) (font_map : gmap (list Z) (list Z))
    (order : list (list Z)) (fs : list TTFont)
    (m0 : gmap (list Z) (gset Z)) :
  Forall2 (font_at w font_map) order fs →
  for_each (λ (support : gmap (list Z) (gset Z)) tag,
              let! path := getitem font_map tag in
              let! unicodes := get_font_unicode_set w path in
              ret (<[tag := unicodes]> support)) m0 order
  = (opened_fonts font_map order,
     inr (foldl (λ (support : gmap (list Z) (gset Z)) tag,
                   match font_of w font_map tag with
                   | Some f => <[tag := coverage f]> support
                   | None => support
                   end) m0 order)).
Proof.
  intros Hfs. revert m0.
  induction Hfs as [|tag f order fs Hf Hfs IH]; intros m0; [done|].
  pose proof Hf as (p & Hp & Hfont). apply font_at_font_of in Hf.
  assert ((let! path := getitem font_map tag in
           let! unicodes := get_font_unicode_set w path in
           ret (<[tag := unicodes]> m0))
          = ([Opened p], inr (<[tag := coverage f]> m0))) as Hbody.
  { unfold getitem. rewrite Hp, bind_ret_l.
    unfold get_font_unicode_set, open_font. by rewrite Hfont. }
  cbn [for_each foldl]. rewrite Hf.
  rewrite (bind_value _ _ _ _ Hbody), IH.
  unfold opened_fonts. simpl. by rewrite Hp.
Qed.

Lemma support_map_lookup (w : World) (font_map : gmap (list Z) (list Z))
    (order : list (list Z)) (fs : list TTFont) t f :
  Forall2 (font_at w font_map) order fs → (t, f) ∈ zip order fs →
  support_map w font_map order !!! t = coverage f.
Proof.
  intros Hfs Hin.
  assert (t ∈ order) as Ht by (by apply elem_of_zip_l in Hin).
  assert (font_of w font_map t = Some f) as Hf.
  { apply list_elem_of_lookup in Hin as [i Hi].
    apply lookup_zip_with_Some in Hi as (t' & f' & [= <- <-] & Ht' & Hf').
    destruct (Forall2_lookup_l _ _ _ _ _ Hfs Ht') as (f'' & Hf'' & Hat).
    apply font_at_font_of. congruence. }
  unfold support_map. generalize (∅ : gmap (list Z) (gset Z)).
  clear Hfs Hin. induction order as [|a order IH]; intros m0.
  { by apply elem_of_nil in Ht. }
  simpl. destruct (decide (t ∈ order)) as [Hin|Hnin]; [by apply IH|].
  apply elem_of_cons in Ht as [<-|?]; [|done]. rewrite Hf.
  assert (∀ m : gmap (list Z) (gset Z), m !!! t = coverage f →
            foldl (λ (support : gmap (list Z) (gset Z)) tag,
                     match font_of w font_map tag with
                     | Some f => <[tag := coverage f]> support
                     | None => support
                     end) m order !!! t = coverage f) as Hkeep.
  { clear IH. induction order as [|b order IH]; intros m Hm; [done|].
    simpl. apply not_elem_of_cons in Hnin as [Hne Hnin]. apply IH; [done|].
    destruct (font_of w font_map b); [|done].
    by rewrite lookup_total_insert_ne. }
  apply Hkeep. by rewrite lookup_total_insert_eq.
Qed.

Lemma validate_fonts_accepts_fonts (w : World)
    (font_map : gmap (list Z) (list Z)) (order : list (list Z)) :
  (validate_fonts w order font_map).2 = inr tt →
  ∃ fs, Forall2 (font_at w font_map) order fs.
Proof.
  intros Hok.
  destruct (fonts_or_first_missing w font_map order)
    as [?|(ok & fs & t & rest & -> & Hfs & Ht)]; [done|].
  by rewrite (validate_fonts_fails_at _ _ _ _ _ _ Hfs Ht) in Hok.
Qed.

(** What [main] returns once the order is not empty, the fonts are
    accepted and the target is built. *)
Lemma main_returns (w : World) (args : Args) (fs : list TTFont)
    (evs_b : list event) (target : gset Z) :
  resolved_order args ≠ [] →
  Forall2 (font_at w (font_map_of args)) (resolved_order args) fs →
  (validate_fonts w (resolved_order args) (font_map_of args)).2 = inr tt →
  build_target w args = (evs_b, inr target) →
  main w args
  = ((validate_fonts w (resolved_order args) (font_map_of args)).1
     ++ evs_b ++ opened_fonts (font_map_of args) (resolved_order args),
     inr (let st := partition target (resolved_order args)
                      (support_map w (font_map_of args) (resolved_order args)) in
          {| plan_order := resolved_order args; plan_target := target;
             plan_assigned := assigned st;
             plan_unassigned := unassigned st |})).
Proof.
  intros Hne Hfs Hv Hb. unfold main.
  rewrite bool_decide_eq_false_2, bind_ret_l by done.
  destruct (validate_fonts w (resolved_order args) (font_map_of args))
    as [evs_v [e|[]]] eqn:Hval; [done|].
  rewrite (bind_value _ _ _ _ eq_refl).
  rewrite (bind_value _ _ _ _ Hb).
  unfold support_of. rewrite (support_of_loop _ _ _ _ _ Hfs).
  unfold bind, ret. cbn [fst snd]. by rewrite app_nil_r.
Qed.

(** X13. [main] returns a plan exactly when the resolved order is not
    empty, every font of it can be opened, the fonts share one
    units-per-em value and do not mix "glyf" and "cff", and every corpus
    file can be read. *)
Theorem main_succeeds_iff (w : World) (args : Args) :
  (∃ evs plan, main w args = (evs, inr plan))
  ↔ resolved_order args ≠ []
    ∧ (∃ fs, Forall2 (font_at w (font_map_of args)) (resolved_order args) fs
             ∧ (distinct_upems fs ≤ 1)%nat
             ∧ ¬ (py_str "glyf" ∈ kinds_of fs ∧ py_str "cff" ∈ kinds_of fs))
    ∧ Forall (λ p, is_Some (texts w !! p)) (default [] (corpus args)).
Proof.
  split.
  - intros (evs & plan & Hmain). unfold main in Hmain.
    case_bool_decide as Hne; [done|]. rewrite bind_ret_l in Hmain.
    destruct (validate_fonts w (resolved_order args) (font_map_of args))
      as [evs_v [e|[]]] eqn:Hval; [done|].
    rewrite (bind_value _ _ _ _ eq_refl) in Hmain.
    destruct (build_target w args) as [evs_b [e|target]] eqn:Hb; [done|].
    assert ((validate_fonts w (resolved_order args) (font_map_of args)).2
            = inr tt) as Hv by by rewrite Hval.
    destruct (validate_fonts_accepts_fonts _ _ _ Hv) as [fs Hfs].
    split_and!; [done| |].
    + exists fs. split; [done|].
      rewrite (validate_fonts_cases _ _ _ _ Hfs) in Hv.
      repeat case_bool_decide; simplify_eq/=; split; (lia || tauto).
    + apply Forall_forall. intros p Hp.
      destruct (texts w !! p) eqn:Ht; [done|]. exfalso.
      assert (∃ ok q rest, default [] (corpus args) = ok ++ q :: rest
                ∧ Forall (λ p, is_Some (texts w !! p)) ok
                ∧ texts w !! q = None) as (ok & q & rest & Hc & Hok & Hq).
      { clear -Hp Ht. induction (default [] (corpus args)) as [|a l IH];
          [by apply elem_of_nil in Hp|].
        destruct (texts w !! a) eqn:Ha.
        - apply elem_of_cons in Hp as [->|Hp]; [congruence|].
          destruct (IH Hp) as (ok & q & rest & -> & Hok & Hq).
          exists (a :: ok), q, rest. split_and!; [done| |done].
          constructor; [by rewrite Ha|done].
        - exists [], a, l. by split_and!. }
      destruct (corpus args) as [paths|] eqn:Hcorpus; simpl in Hc;
        [|by destruct ok].
      subst paths.
      by rewrite (build_target_fails_at _ _ _ _ _ Hcorpus Hok Hq) in Hb.
  - intros (Hne & (fs & Hfs & Hd & Hk) & Hcorpus).
    assert ((validate_fonts w (resolved_order args) (font_map_of args)).2
            = inr tt) as Hv.
    { rewrite (validate_fonts_cases _ _ _ _ Hfs).
      rewrite bool_decide_eq_false_2 by lia.
      repeat case_bool_decide; cbn [snd andb]; tauto. }
    destruct (corpus_target_result w args Hcorpus) as (evs_b & t & Ht).
    assert (build_target w args = (evs_b, inr (add_blocks args t))) as Hb.
    { rewrite build_target_result. by rewrite Ht. }
    rewrite (main_returns _ _ _ _ _ Hne Hfs Hv Hb). by eexists _, _.
Qed.

Lemma support_map_coverage_of (w : World) (font_map : gmap (list Z) (list Z))
    (order : list (list Z)) (fs : list TTFont) t :
  Forall2 (font_at w font_map) order fs → t ∈ order →
  support_map w font_map order !!! t = coverage_of w font_map t.
Proof.
  intros Hfs [i Hi]%list_elem_of_lookup.
  destruct (Forall2_lookup_l _ _ _ _ _ Hfs Hi) as (f & Hf & Hat).
  rewrite (support_map_lookup w font_map order fs t f Hfs).
  - unfold coverage_of. apply font_at_font_of in Hat. by rewrite Hat.
  - apply list_elem_of_lookup. exists i.
    by rewrite lookup_zip_with, Hi; simpl; rewrite Hf.
Qed.

(** The parts of a successful run of [main]. *)
Lemma main_inversion (w : World) (args : Args) (evs : list event)
    (plan : Plan) :
  main w args = (evs, inr plan) →
  ∃ fs evs_b target,
    resolved_order args ≠ []
    ∧ Forall2 (font_at w (font_map_of args)) (resolved_order args) fs
    ∧ (validate_fonts w (resolved_order args) (font_map_of args)).2 = inr tt
    ∧ build_target w args = (evs_b, inr target)
    ∧ evs = (validate_fonts w (resolved_order args) (font_map_of args)).1
            ++ evs_b ++ opened_fonts (font_map_of args) (resolved_order args)
    ∧ plan = (let st := partition target (resolved_order args)
                          (support_map w (font_map_of args)
                             (resolved_order args)) in
              {| plan_order := resolved_order args; plan_target := target;
                 plan_assigned := assigned st;
                 plan_unassigned := unassigned st |}).
Proof.
  intros Hmain. pose proof Hmain as Hmain'. unfold main in Hmain.
  case_bool_decide as Hne; [done|]. rewrite bind_ret_l in Hmain.
  destruct (validate_fonts w (resolved_order args) (font_map_of args))
    as [evs_v [e|[]]] eqn:Hval; [done|].
  rewrite (bind_value _ _ _ _ eq_refl) in Hmain.
  destruct (build_target w args) as [evs_b [e|target]] eqn:Hb; [done|].
  clear Hmain.
  assert ((validate_fonts w (resolved_order args) (font_map_of args)).2
          = inr tt) as Hv by by rewrite Hval.
  destruct (validate_fonts_accepts_fonts _ _ _ Hv) as [fs Hfs].
  rewrite (main_returns _ _ _ _ _ Hne Hfs Hv Hb) in Hmain'.
  injection Hmain' as <- <-.
  exists fs, evs_b, target. rewrite Hval. by split_and!.
Qed.

(** X17. The plan [main] returns: its order is the resolved order and
    its target the one of [build_target]; the set of a font is what the
    target and the Unicode cmap of that font have in common, less the
    cmaps of the fonts ahead of it; the counter is the number of target
    codepoints in no cmap; and the subsetting loop gets a request for
    exactly the fonts whose set is not empty. *)
Theorem main_plan_contents (w : World) (args : Args) (evs : list event)
    (plan : Plan) :
  main w args = (evs, inr plan) →
  let font_map := font_map_of args in
  let order := plan_order plan in
  let target := plan_target plan in
  order = resolved_order args
  ∧ (build_target w args).2 = inr target
  ∧ (∀ pre t post, order = pre ++ t :: post →
       plan_assigned plan !!! t
       = (target ∩ coverage_of w font_map t)
         ∖ ⋃ (coverage_of w font_map <$> pre))
  ∧ plan_unassigned plan
    = Z.of_nat (size (filter
                        (λ u, Forall (λ t, u ∉ coverage_of w font_map t) order)
                        target))
  ∧ (∀ t keep, (t, keep) ∈ subset_jobs plan
       ↔ t ∈ order ∧ keep = plan_assigned plan !!! t ∧ keep ≠ ∅).
Proof.
  intros (fs & evs_b & tg & Hne & Hfs & Hv & Hb & _ & ->)%main_inversion.
  cbn zeta. cbn [plan_order plan_target plan_assigned plan_unassigned].
  destruct (resolved_order_wf args) as [Hnd Hnil].
  set (order := resolved_order args) in *.
  set (fm := font_map_of args) in *.
  split_and!.
  - done.
  - by rewrite Hb.
  - intros pre t post Ho. rewrite Ho.
    rewrite partition_closed_form by (by rewrite <- Ho).
    rewrite <- Ho.
    rewrite (support_map_coverage_of w fm order fs t Hfs)
      by (rewrite Ho; set_solver).
    do 2 f_equal. apply list_fmap_ext. intros i t' Ht'.
    apply (support_map_coverage_of w fm order fs t' Hfs).
    rewrite Ho. apply elem_of_app. left. by eapply list_elem_of_lookup_2.
  - destruct (partition_spec order (support_map w fm order) tg) as (_ & Hn & _).
    rewrite Hn, <- uncovered_owner by done. do 2 f_equal.
    unfold uncovered. apply set_eq. intros u. rewrite !elem_of_filter.
    assert (Forall (λ t, u ∉ support_map w fm order !!! t) order
            ↔ Forall (λ t, u ∉ coverage_of w fm t) order) as ->; [|done].
    rewrite !Forall_forall. split; intros H t Ht; specialize (H t Ht);
      by rewrite (support_map_coverage_of w fm order fs t Hfs Ht) in *.
  - intros t keep. unfold subset_jobs.
    cbn [plan_order plan_assigned]. rewrite list_elem_of_omap. split.
    + intros (t' & Ht' & Hjob). case_bool_decide; [done|].
      injection Hjob as <- <-. done.
    + intros (Ht & -> & Hkeep). exists t. split; [done|].
      by rewrite bool_decide_eq_false_2.
Qed.

(** X18. A successful run of [main] opens every font of the order twice,
    once to validate it and once for its coverage, and reads the corpus
    files in between, after the validation; apart from the warning about
    variable fonts it does nothing else before the subsetting. *)
Theorem main_events (w : World) (args : Args) (evs : list event)
    (plan : Plan) :
  main w args = (evs, inr plan) →
  ∃ warning,
    evs = opened_fonts (font_map_of args) (plan_order plan)
          ++ warning
          ++ (Opened <$> default [] (corpus args))
          ++ opened_fonts (font_map_of args) (plan_order plan)
    ∧ (warning = [] ∨ warning = [Printed variable_warning]).
Proof.
  intros (fs & evs_b & tg & Hne & Hfs & Hv & Hb & -> & ->)%main_inversion.
  cbn [plan_order].
  assert (evs_b = Opened <$> default [] (corpus args)) as ->.
  { rewrite build_target_result in Hb. injection Hb as <- Hb.
    unfold corpus_target in *.
    destruct (corpus args) as [[|p paths]|]; cbn [given from_option id] in *;
      [done| |done].
    unfold read_corpus_chars in *.
    match goal with
    | H : context [for_each ?f ?a ?l] |- _ =>
        destruct (for_each f a l) as [evs' [e|chars]] eqn:Hloop
    end; [done|].
    apply read_corpus_loop_chars in Hloop as [-> _].
    unfold bind, ret. cbn [fst snd]. by rewrite !app_nil_r. }
  rewrite (validate_fonts_cases _ _ _ _ Hfs) in Hv |- *.
  repeat case_bool_decide; cbn [fst snd andb] in *; try done.
  all: first [ exists [Printed variable_warning]; split; [|by right];
               by rewrite <- !app_assoc
             | exists []; split; [done|by left] ].
Qed.

Lemma main_plan_contents_witness :
  ∃ evs plan,
    main ex_run_world ex_run_args = (evs, inr plan)
    ∧ plan_order plan = [py_str "zh-tw"; py_str "latin0"; py_str "zh-cn"]
    ∧ (subset_jobs plan).*1 = [py_str "zh-tw"; py_str "latin0"]
    ∧ plan_unassigned plan = 93.
Proof.
  assert (∃ evs plan, main ex_run_world ex_run_args = (evs, inr plan))
    as (evs & plan & Hmain).
  { eexists _, _. vm_compute. reflexivity. }
  exists evs, plan. split; [exact Hmain|].
  pose proof (main_plan_contents _ _ _ _ Hmain) as (Horder & _).
  split; [by rewrite Horder|].
  vm_compute in Hmain. by injection Hmain as <- <-.
Defined.

Lemma main_events_witness :
  ∃ evs plan,
    main ex_run_world ex_run_args = (evs, inr plan)
    ∧ evs = [Opened (py_str "tw.otf"); Opened (py_str "latin.ttf");
             Opened (py_str "cn.otf"); Opened (py_str "book.txt");
             Opened (py_str "tw.otf"); Opened (py_str "latin.ttf");
             Opened (py_str "cn.otf")].
Proof.
  assert (∃ evs plan, main ex_run_world ex_run_args = (evs, inr plan))
    as (evs & plan & Hmain).
  { eexists _, _. vm_compute. reflexivity. }
  exists evs, plan. split; [exact Hmain|].
  destruct (main_events _ _ _ _ Hmain) as (warning & Hevs & _).
  vm_compute in Hmain. by injection Hmain as <- <-.
Defined.

(** ** Priority Order Resolver: resolving a resolved order *)

Lemma lstrip_id (s : list Z) :
  from_option is_space false (head s) = false → lstrip s = s.
Proof. destruct s as [|c s]; simpl; [done|]. by intros ->. Qed.

Lemma strip_id (s : list Z) :
  from_option is_space false (head s) = false →
  from_option is_space false (last s) = false → strip s = s.
Proof.
  intros Hh Hl. unfold strip, rstrip. rewrite (lstrip_id s) by done.
  rewrite lstrip_id, reverse_involutive; [done|].
  by rewrite head_reverse.
Qed.

Lemma strip_idemp (s : list Z) : strip (strip s) = strip s.
Proof.
  destruct (strip_spec s) as (_ & _ & _ & _ & _ & Hh & Hl).
  by apply strip_id.
Qed.

Lemma filter_ne_absent (x : list Z) (l : list (list Z)) :
  x ∉ l → filter (λ y, y ≠ x) l = l.
Proof.
  induction l as [|y l IH]; [done|].
  intros [Hne Hx]%not_elem_of_cons.
  rewrite filter_cons_True by done. f_equal. by apply IH.
Qed.

Lemma keep_first_NoDup (l : list (list Z)) : NoDup l → keep_first l = l.
Proof.
  induction 1 as [|x l Hx _ IH]; simpl; [done|].
  by rewrite IH, filter_ne_absent.
Qed.

Lemma expanded_tokens_fixed (l latin_tags : list (list Z)) :
  Forall (λ t, strip t = t ∧ t ≠ [] ∧ t ≠ py_str "latin") l →
  expanded_tokens l latin_tags = l.
Proof.
  intros Hl. unfold expanded_tokens. rewrite expanded_tokens_acc. simpl.
  induction Hl as [|t l (Hs & Hne & Hlat) _ IH]; [done|].
  rewrite fmap_cons, Hs, filter_cons_True by done. simpl.
  unfold expand_one at 1. rewrite bool_decide_eq_false_2 by done.
  simpl. by f_equal.
Qed.

(** X16. Resolving an order that is already resolved changes nothing,
    when the latin tags are themselves trimmed, not empty and not
    ["latin"] (as [latin0], [latin1], ... are): the resolver is
    idempotent. *)
Theorem expand_prefer_order_idempotent (tokens latin_tags : list (list Z)) :
  Forall (λ t, strip t = t ∧ t ≠ [] ∧ t ≠ py_str "latin") latin_tags →
  expand_prefer_order (expand_prefer_order tokens latin_tags) latin_tags
  = expand_prefer_order tokens latin_tags.
Proof.
  intros Hlat.
  assert (Forall (λ t, strip t = t ∧ t ≠ [] ∧ t ≠ py_str "latin")
            (expand_prefer_order tokens latin_tags)) as Hout.
  { rewrite expand_prefer_order_keep_first. apply Forall_forall.
    intros t Ht. apply (proj1 (elem_of_keep_first _ _)) in Ht. revert Ht.
    unfold expanded_tokens. rewrite expanded_tokens_acc. simpl.
    intros (l & Hin & (t' & -> & Ht')%list_elem_of_fmap)%list_elem_of_join.
    apply list_elem_of_filter in Ht' as [Hne (t0 & -> & _)%list_elem_of_fmap].
    unfold expand_one in Hin. case_bool_decide as Hl.
    - rewrite Forall_forall in Hlat. by apply Hlat.
    - apply list_elem_of_singleton in Hin as ->.
      split_and!; [apply strip_idemp|done..]. }
  rewrite (expand_prefer_order_keep_first (expand_prefer_order _ _)).
  rewrite expanded_tokens_fixed by done.
  apply keep_first_NoDup.
  rewrite expand_prefer_order_keep_first. apply NoDup_keep_first.
Qed.

Lemma expand_prefer_order_idempotent_witness :
  expand_prefer_order
    (expand_prefer_order [py_str " zh-tw"; py_str "latin"; py_str "zh-tw "]
       [py_str "latin0"; py_str "latin1"])
    [py_str "latin0"; py_str "latin1"]
  = [py_str "zh-tw"; py_str "latin0"; py_str "latin1"].
Proof.
  rewrite expand_prefer_order_idempotent; [by vm_compute|].
  by apply (bool_decide_unpack _); vm_compute.
Defined.

(** ** The default order *)

Lemma filter_all (P : list Z → Prop) `{!∀ x, Decision (P x)}
    (l : list (list Z)) :
  Forall P l → filter P l = l.
Proof.
  induction 1 as [|x l Hx _ IH]; [done|].
  by rewrite filter_cons_True, IH.
Qed.

(** X19. Without [--prefer-order] (or with an empty one), and with no
    empty font path on the command line, the resolved order is every
    Latin tag in the order of the [--latin] paths, then [zh-tw], then
    [zh-cn], then [ja] when a ja font is given. *)
Theorem default_order (args : Args) :
  given (prefer_order args) = false →
  Forall (λ p, p ≠ []) (latin args) →
  zh_tw args ≠ [] → zh_cn args ≠ [] →
  resolved_order args
  = latin_tags_of args ++ [py_str "zh-tw"; py_str "zh-cn"]
    ++ (if given (ja args) then [py_str "ja"] else []).
Proof.
  intros Hp Hlatin Htw Hcn.
  destruct (font_map_of_lookups args) as (Hl & Hmtw & Hmcn & Hmja & _).
  unfold resolved_order, keep_valid, requested_order. rewrite Hp.
  apply filter_all. rewrite !Forall_app. split_and!.
  - apply Forall_forall. intros t [i Hi]%list_elem_of_lookup.
    pose proof (lookup_lt_Some _ _ _ Hi) as Hlt.
    rewrite length_latin_tags in Hlt.
    rewrite latin_tags_lookup in Hi by done.
    assert (t = py_str "latin" ++ str_of_int (Z.of_nat i)) as ->
      by congruence.
    destruct (lookup_lt_is_Some_2 (latin args) i Hlt) as [path Hpath].
    cbv beta. rewrite (Hl i path Hpath). simpl. apply truthy_true.
    rewrite Forall_forall in Hlatin. apply Hlatin.
    by eapply list_elem_of_lookup_2.
  - apply Forall_cons. split; [|apply Forall_singleton].
    + rewrite Hmtw. simpl. by apply truthy_true.
    + rewrite Hmcn. simpl. by apply truthy_true.
  - destruct (given (ja args)) eqn:Hja; [|constructor].
    apply Forall_singleton. rewrite Hmja.
    by destruct (ja args) as [[|c p]|].
Qed.

Lemma default_order_witness :
  resolved_order (ex_corpus_args [])
  = [py_str "latin0"; py_str "zh-tw"; py_str "zh-cn"].
Proof.
  rewrite (default_order (ex_corpus_args [])); [done|done| |done|done].
  by repeat constructor.
Defined.
